(** * StackVM parser front end: scope model and tree transformation pass

    A shallow embedding of [src/parser/nodes.ts] (the SV node classes and the
    [SVScope] symbol table) and of the [Parser] class that turns a Babel
    syntax tree into SV nodes, followed by the properties proved about them.

    Conventions of the embedding:
    - a JavaScript call either returns or throws; [result] keeps both, and a
      third outcome, [Stuck], for what the model gives no behaviour to (a
      reference that is not in the store, or a recursion that ran out of
      fuel);
    - class instances that are shared by reference ([SVScope], reached from
      its children through [parent] and from its bindings through [scope])
      live in a store and are named by their address;
    - the Babel tree is owned by the caller and mutated in place by the pass;
      the pass therefore gives the tree as it leaves it, also when it ends
      in a throw;
    - JavaScript numbers are only carried around, never computed with: the
      development is parametric in their type [number]. *)

From stdpp Require Import gmap strings list fin_maps.

(** ** Outcomes of a call *)

Inductive result (A : Type) : Type :=
| Ok (value : A)
| Throw (message : string)
| Stuck.

Arguments Ok {A} value.
Arguments Throw {A} message.
Arguments Stuck {A}.

(** [result] is a monad: a throw or a stuck call ends the computation, as an
    uncaught exception does.  This gives stdpp's [x ← m; k] notation. *)
#[global] Instance result_ret : MRet result := λ A a, Ok a.
#[global] Instance result_bind : MBind result := λ A B k m,
  match m with
  | Ok a => k a
  | Throw message => Throw message
  | Stuck => Stuck
  end.

(** Modelled from the spec: [assert] of [src/utils], which is not among the
    sources.  The spec calls every failed assertion a fatal failure that
    propagates to the caller; the message is the one the call site passes. *)
Definition assert (condition : bool) (message : string) : result unit :=
  if condition then Ok tt else Throw message.

(** ** Scope model ([SVScope], [SVScopeDefinition]) *)

Inductive SVScopeDefinitionKindType : Type :=
| KLet    (* "let" *)
| KVar    (* "var" *)
| KConst. (* "const" *)

Definition is_var (kind : SVScopeDefinitionKindType) : bool :=
  match kind with KVar => true | _ => false end.

(** Address of an [SVScope] object in the store. *)
Abbreviation addr := nat.

(** [class SVScopeDefinition]: [id] is the size of the owning scope's map when
    the binding was made, [scope] the reference back to that scope. *)
Record SVScopeDefinition : Type := mkSVScopeDefinition {
  def_id : nat;
  def_kind : SVScopeDefinitionKindType;
  def_constant : bool;
  def_scope : addr
}.

Section Scope.

Variable number : Type.

(** [class SVScope]: [parent] is [None] for JavaScript's [null]. *)
Record SVScope : Type := mkSVScope {
  scope_id : number;
  parent : option addr;
  variables : gmap string SVScopeDefinition
}.

(** The store of scope objects; a reference is an index into it. *)
Abbreviation heap := (list SVScope).

(** [new SVScope(id, parent)]: a fresh object with an empty map. *)
Definition newSVScope (id : number) (parent : option addr) (h : heap) : heap * addr :=
  (h ++ [mkSVScope id parent ∅], length h).

(** [has] of the scope's [Map]. *)
Definition has (s : SVScope) (name : string) : bool :=
  bool_decide (is_Some (variables s !! name)).

Definition hasVariable (h : heap) (this : addr) (name : string) : result bool :=
  match h !! this with
  | Some s => Ok (has s name)
  | None => Stuck
  end.

(** [this.variables.has(name) || !!(this.parent && this.parent.hasVariable(name))] *)
Definition hasVariableInParentRoot (h : heap) (this : addr) (name : string) : result bool :=
  match h !! this with
  | Some s =>
      if has s name then Ok true
      else match parent s with
           | Some p => hasVariable h p name
           | None => Ok false
           end
  | None => Stuck
  end.

Definition getVariable (h : heap) (this : addr) (name : string) : result SVScopeDefinition :=
  match h !! this with
  | Some s =>
      let definition := variables s !! name in
      _ ← assert (bool_decide (is_Some definition)) (name +:+ " is not defined.");
      match definition with
      | Some d => Ok d
      | None => Stuck
      end
  | None => Stuck
  end.

(** The method calls itself on [this.parent]; [fuel] bounds the number of
    calls, and [Stuck] is the answer when it is used up. *)
Fixpoint getVariableInParentRoot (fuel : nat) (h : heap) (this : addr) (name : string)
  : result SVScopeDefinition :=
  match fuel with
  | O => Stuck
  | S fuel' =>
      match h !! this with
      | Some s =>
          b ← hasVariable h this name;
          if (b : bool) then getVariable h this name
          else match parent s with
               | Some p => getVariableInParentRoot fuel' h p name
               | None => Throw (name +:+ " is not defined.")
               end
      | None => Stuck
      end
  end.

(** [defineVariable]: the new binding's id is [this.variables.size] read
    before [set]; [set] overwrites an entry of the same name. *)
Definition defineVariable (h : heap) (this : addr) (name : string)
    (kind : SVScopeDefinitionKindType) (constant : bool)
  : result (heap * SVScopeDefinition) :=
  match h !! this with
  | Some s =>
      let isDefined := has s name in
      _ ← assert (negb isDefined || is_var kind) (name +:+ " is already defined.");
      let definition := mkSVScopeDefinition (size (variables s)) kind constant this in
      Ok (<[this := mkSVScope (scope_id s) (parent s) (<[name := definition]> (variables s))]> h,
          definition)
  | None => Stuck
  end.

(** A run of [defineVariable] calls on one scope, stopping at the first one
    that throws; it returns the bindings the calls returned, in call order. *)
Fixpoint defineAll (h : heap) (this : addr)
    (calls : list (string * SVScopeDefinitionKindType * bool))
  : result (heap * list SVScopeDefinition) :=
  match calls with
  | [] => Ok (h, [])
  | (name, kind, constant) :: rest =>
      '(h1, d) ← defineVariable h this name kind constant;
      '(h2, ds) ← defineAll h1 this rest;
      Ok (h2, d :: ds)
  end.

(** The names a run of calls defines, in call order. *)
Definition callNames (calls : list (string * SVScopeDefinitionKindType * bool))
  : list string :=
  map (λ call, call.1.1) calls.

(** Every [parent] reference points to an older object: what the constructor
    guarantees, since it can only be handed scopes that already exist. *)
Definition heap_wf (h : heap) : Prop :=
  ∀ a s p, h !! a = Some s → parent s = Some p → p < a.

(** [name] is bound in scope [a] or in one of its ancestors. *)
Inductive boundInChain (h : heap) (name : string) : addr → Prop :=
| bound_here a s :
    h !! a = Some s → is_Some (variables s !! name) → boundInChain h name a
| bound_above a s p :
    h !! a = Some s → parent s = Some p → boundInChain h name p →
    boundInChain h name a.

(** [d] is the binding of [name] in the nearest scope that has one, going
    from [a] outwards. *)
Inductive resolvesTo (h : heap) (name : string) : addr → SVScopeDefinition → Prop :=
| resolves_here a s d :
    h !! a = Some s → variables s !! name = Some d → resolvesTo h name a d
| resolves_above a s p d :
    h !! a = Some s → variables s !! name = None → parent s = Some p →
    resolvesTo h name p d → resolvesTo h name a d.

End Scope.

Arguments mkSVScope {number} _ _ _.
Arguments scope_id {number} _.
Arguments parent {number} _.
Arguments variables {number} _.
Arguments newSVScope {number} _ _ _.
Arguments has {number} _ _.
Arguments hasVariable {number} _ _ _.
Arguments hasVariableInParentRoot {number} _ _ _.
Arguments getVariable {number} _ _ _.
Arguments getVariableInParentRoot {number} _ _ _ _.
Arguments defineVariable {number} _ _ _ _ _.
Arguments defineAll {number} _ _ _.
Arguments heap_wf {number} _.
Arguments boundInChain {number} _ _ _.
Arguments resolvesTo {number} _ _ _ _.

(** A chain of three nested scopes, used in the examples below: the
    outermost scope binds [x], the two scopes inside it bind nothing. *)
Definition nestedScopes : list (SVScope Z) :=
  [ mkSVScope 0%Z None {["x" := mkSVScopeDefinition 0 KLet false 0]};
    mkSVScope 1%Z (Some 0) ∅;
    mkSVScope 2%Z (Some 1) ∅ ].

(** ** Node model ([SVNode] and its subclasses) *)

Inductive SVNodeType : Type :=
| TLiteral | TBinaryExpression | TLogicalExpression | TUnaryExpression
| TArrayExpression | TCallExpression | TMemberExpression
| TAssignmentExpression | TIdentifier | TVariableDefinition.

Inductive SVAssignmentType : Type :=
| AssignIdentifier  (* "identifier" *)
| AssignProperty.   (* "property" *)

(** The [valueType] argument of [SVLiteral]'s constructor:
    ["string" | "number" | "boolean"]. *)
Inductive LiteralValueType : Type :=
| VTString | VTNumber | VTBoolean.

Definition valueTypeName (valueType : LiteralValueType) : string :=
  match valueType with
  | VTString => "string"
  | VTNumber => "number"
  | VTBoolean => "boolean"
  end.

(** One entry of a [VariableDefinition] node.  The declared type
    [SVVariableDefinitionType] also has a [kind]; the object the parser builds
    has [name], [constant] and [value] only, so [var_kind] is [None] there. *)
Record SVVariableDefinitionType (node : Type) : Type := mkVariable {
  var_name : string;
  var_kind : option SVScopeDefinitionKindType;
  var_constant : bool;
  var_value : option node
}.

Arguments mkVariable {node} _ _ _ _.
Arguments var_name {node} _.
Arguments var_kind {node} _.
Arguments var_constant {node} _.
Arguments var_value {node} _.

(** [VariableDeclarator] of the Babel tree: [id] is the binding pattern,
    [init] the initializer ([None] for [null]). *)
Record VariableDeclarator (node : Type) : Type := mkDeclarator {
  decl_id : node;
  decl_init : option node
}.

Arguments mkDeclarator {node} _ _.
Arguments decl_id {node} _.
Arguments decl_init {node} _.

Section Nodes.

Variable number : Type.

(** A JavaScript value ([any]), as far as [typeof] tells values apart. *)
Inductive JSValue : Type :=
| JSUndefined
| JSNull
| JSBoolean (b : bool)
| JSNumber (n : number)
| JSBigInt (z : Z)
| JSString (s : string)
| JSSymbol (description : string)
| JSFunction (reference : nat)
| JSObject (reference : nat).

Definition typeof (v : JSValue) : string :=
  match v with
  | JSUndefined => "undefined"
  | JSNull => "object"
  | JSBoolean _ => "boolean"
  | JSNumber _ => "number"
  | JSBigInt _ => "bigint"
  | JSString _ => "string"
  | JSSymbol _ => "symbol"
  | JSFunction _ => "function"
  | JSObject _ => "object"
  end.

(** The SV tree.  A child is [None] where the field holds [undefined]: the
    parser stores what [scanNode] returned for the child, which is
    [undefined] for a kind it does not handle (the [!] in the source is
    erased at run time). *)
#[local] Unset Elimination Schemes.
Inductive SVNode : Type :=
| SVLiteral (value : JSValue)
| SVBinaryExpression (left right : option SVNode) (operator : string)
| SVLogicalExpression (left right : option SVNode) (operator : string)
| SVUnaryExpression (arg : option SVNode) (operator : string)
| SVArrayExpression (elements : list (option SVNode))
| SVCallExpression (callee : option SVNode) (args : list (option SVNode))
| SVMemberExpression (object property : option SVNode)
| SVAssignmentExpression (left right : option SVNode) (operator : string)
    (assignmentType : SVAssignmentType)
| SVIdentifier (name : string) (isGlobal : bool)
| SVVariableDefinition (variables : list (SVVariableDefinitionType SVNode)).
#[local] Set Elimination Schemes.

Definition nodeType (node : SVNode) : SVNodeType :=
  match node with
  | SVLiteral _ => TLiteral
  | SVBinaryExpression _ _ _ => TBinaryExpression
  | SVLogicalExpression _ _ _ => TLogicalExpression
  | SVUnaryExpression _ _ => TUnaryExpression
  | SVArrayExpression _ => TArrayExpression
  | SVCallExpression _ _ => TCallExpression
  | SVMemberExpression _ _ => TMemberExpression
  | SVAssignmentExpression _ _ _ _ => TAssignmentExpression
  | SVIdentifier _ _ => TIdentifier
  | SVVariableDefinition _ => TVariableDefinition
  end.

(** [new SVLiteral(valueType, value)]: the [switch] checks [typeof value]
    against the declared kind, then the value is stored as it is. *)
Definition newSVLiteral (valueType : LiteralValueType) (value : JSValue) : result SVNode :=
  _ ← match valueType with
      | VTString =>
          assert (String.eqb (typeof value) "string")
            "The value of a string literal node must be of type string"
      | VTNumber =>
          assert (String.eqb (typeof value) "number")
            "The value of a numeric literal node must be of type number"
      | VTBoolean =>
          assert (String.eqb (typeof value) "boolean")
            "The value of a boolean literal node must be of type boolean"
      end;
  Ok (SVLiteral value).

(** [new SVAssignmentExpression(left, right, operator)] *)
Definition newSVAssignmentExpression (left right : SVNode) (operator : string) : SVNode :=
  SVAssignmentExpression (Some left) (Some right) operator
    (match nodeType left with
     | TMemberExpression => AssignProperty
     | _ => AssignIdentifier
     end).

(** ** The Babel tree the pass reads

    One constructor per [node.type] the pass dispatches on; [OtherNode]
    stands for a node of any other type, with that type's name and the
    node's children.  An element of an array literal is a node, or [None]
    for the [null] Babel puts where the literal has an elided element, as in
    [[1, , 2]]. *)
#[local] Unset Elimination Schemes.
Inductive Node : Type :=
| StringLiteral (value : string)
| NumericLiteral (value : number)
| BooleanLiteral (value : bool)
| BinaryExpression (left right : Node) (operator : string)
| LogicalExpression (left right : Node) (operator : string)
| UnaryExpression (argument : Node) (operator : string)
| ArrayExpression (elements : list (option Node))
| ExpressionStatement (expression : Node)
| Identifier (name : string)
| VariableDeclaration (kind : string) (declarations : list (VariableDeclarator Node))
| OtherNode (type : string) (children : list Node).
#[local] Set Elimination Schemes.

(** ** The parser *)

Record Parser : Type := mkParser {
  globals : gset string;
  nodesRoot : list SVNode
}.

(** [new Parser()] *)
Definition newParser : Parser := mkParser ∅ [].

(** [this.nodesRoot.push(svNode)] *)
Definition push (svNode : SVNode) (this : Parser) : Parser :=
  mkParser (globals this) (nodesRoot this ++ [svNode]).

(** An exception does not undo what was done before it was thrown: the
    array reversed in place stays reversed.  A call of the pass therefore
    gives, however it completes, the tree and the parser as it leaves them,
    and beside them how it completed: the returned value, or the error
    thrown. *)

(** The completion passed on when a call inside did not return. *)
Definition abrupt {A B : Type} (completion : result A) : result B :=
  match completion with
  | Throw message => Throw message
  | _ => Stuck
  end.

(** What [scanNode] throws when it is handed [null]: the [switch] reads
    [node.type]. *)
Definition nullNodeError : string := "Cannot read properties of null (reading 'type')".

(** [new SVDefinition(variables)].  The parser imports [SVDefinition] from
    [./nodes], and [nodes.ts] exports no such name (its class for a
    declaration is [SVVariableDefinition]), so the imported binding is
    [undefined] and [new] on it throws a TypeError. *)
Definition newSVDefinition (variables : list (SVVariableDefinitionType SVNode))
  : result SVNode :=
  Throw "SVDefinition is not a constructor".

(** What a call of [scanNode] leaves: the scanned node as it is afterwards,
    the parser, and the returned SV node ([None] for [undefined]) or the
    error. *)
Abbreviation scanned := (Node * Parser * result (option SVNode))%type.

Section Loops.

(** [scan] is the call [this.scanNode(_, false)]. *)
Variable scan : Node → Parser → scanned.

(** [this.scanNode(element as Node, false)] for one element of an array
    literal: the cast does nothing at run time, and an elided element is
    [null]. *)
Definition scanElement (element : option Node) (this : Parser)
  : option Node * Parser * result (option SVNode) :=
  match element with
  | Some node =>
      let '(node', this1, completion) := scan node this in
      (Some node', this1, completion)
  | None => (None, this, Throw nullNodeError)
  end.

(** The loop of the [VariableDeclaration] case over [node.declarations].  A
    declarator whose [id] is not an [Identifier] is passed over
    ([continue]); for the others the initializer, when there is one, is
    scanned and an entry is pushed on [variables]. *)
Fixpoint scanDeclarations (kind : string) (declarations : list (VariableDeclarator Node))
    (this : Parser)
  : list (VariableDeclarator Node) * Parser
    * result (list (SVVariableDefinitionType SVNode)) :=
  match declarations with
  | [] => ([], this, Ok [])
  | declarator :: rest =>
      match decl_id declarator with
      | Identifier name =>
          match decl_init declarator with
          | Some init =>
              let '(init', this1, completion) := scan init this in
              match completion with
              | Ok value =>
                  let '(rest', this2, completion2) := scanDeclarations kind rest this1 in
                  (mkDeclarator (decl_id declarator) (Some init') :: rest', this2,
                   variables ← completion2;
                   Ok (mkVariable name None (String.eqb kind "const") value :: variables))
              | _ =>
                  (mkDeclarator (decl_id declarator) (Some init') :: rest, this1,
                   abrupt completion)
              end
          | None =>
              let '(rest', this1, completion) := scanDeclarations kind rest this in
              (declarator :: rest', this1,
               variables ← completion;
               Ok (mkVariable name None (String.eqb kind "const") None :: variables))
          end
      | _ =>
          let '(rest', this1, completion) := scanDeclarations kind rest this in
          (declarator :: rest', this1, completion)
      end
  end.

End Loops.

(** The [for ... of] loop of the [ArrayExpression] case, over the elements
    paired with the calls still to be made on them: each call runs on the
    parser the one before left and its result is pushed on [nodeElements];
    when a call throws, the elements behind it are left as they are. *)
Fixpoint runEach
    (scans : list (option Node
                   * (Parser → option Node * Parser * result (option SVNode))))
    (this : Parser)
  : list (option Node) * Parser * result (list (option SVNode)) :=
  match scans with
  | [] => ([], this, Ok [])
  | (element, scan) :: rest =>
      let '(element', this1, completion) := scan this in
      match completion with
      | Ok svNode =>
          let '(rest', this2, completion2) := runEach rest this1 in
          (element' :: rest', this2,
           nodeElements ← completion2; Ok (svNode :: nodeElements))
      | _ => (element' :: map fst rest, this1, abrupt completion)
      end
  end.

(** [scanNode(node, isForRoot)].  The [switch] gives the node as the case
    leaves it, the parser and [svNode] (or the error thrown in the case);
    the code after the [switch], reached when nothing was thrown, pushes
    [svNode] on [nodesRoot] when it is defined and [isForRoot] holds. *)
Fixpoint scanNode (node : Node) (isForRoot : bool) (this : Parser) {struct node}
  : scanned :=
  let '(node', this1, completion) :=
    match node with
    | StringLiteral value =>
        (node, this,
         svNode ← newSVLiteral VTString (JSString value); Ok (Some svNode))
    | NumericLiteral value =>
        (node, this,
         svNode ← newSVLiteral VTNumber (JSNumber value); Ok (Some svNode))
    | BooleanLiteral value =>
        (node, this,
         svNode ← newSVLiteral VTBoolean (JSBoolean value); Ok (Some svNode))
    | BinaryExpression node_left node_right operator =>
        let '(node_left', this1, completion_left) := scanNode node_left false this in
        match completion_left with
        | Ok left' =>
            let '(node_right', this2, completion_right) :=
              scanNode node_right false this1 in
            (BinaryExpression node_left' node_right' operator, this2,
             right' ← completion_right;
             Ok (Some (SVBinaryExpression left' right' operator)))
        | _ =>
            (BinaryExpression node_left' node_right operator, this1,
             abrupt completion_left)
        end
    | LogicalExpression node_left node_right operator =>
        let '(node_left', this1, completion_left) := scanNode node_left false this in
        match completion_left with
        | Ok left' =>
            let '(node_right', this2, completion_right) :=
              scanNode node_right false this1 in
            (LogicalExpression node_left' node_right' operator, this2,
             right' ← completion_right;
             Ok (Some (SVLogicalExpression left' right' operator)))
        | _ =>
            (LogicalExpression node_left' node_right operator, this1,
             abrupt completion_left)
        end
    | UnaryExpression node_argument operator =>
        let '(node_argument', this1, completion) := scanNode node_argument false this in
        (UnaryExpression node_argument' operator, this1,
         arg ← completion; Ok (Some (SVUnaryExpression arg operator)))
    | ArrayExpression elements =>
        (* [node.elements.reverse()] reverses the node's own array and
           returns it; the loop then scans that array front to back, so
           the node keeps the reversed order, whatever the loop does *)
        let elements :=
          rev (map (λ element,
                      (element, scanElement (λ node, scanNode node false) element))
                 elements) in
        let '(elements', this1, completion) := runEach elements this in
        (ArrayExpression elements', this1,
         nodeElements ← completion; Ok (Some (SVArrayExpression nodeElements)))
    | ExpressionStatement expression =>
        let '(expression', this1, completion) := scanNode expression false this in
        (ExpressionStatement expression', this1, _ ← completion; Ok None)
    | Identifier name =>
        (node, this,
         Ok (Some (SVIdentifier name (bool_decide (name ∈ globals this)))))
    | VariableDeclaration kind declarations =>
        let '(declarations', this1, completion) :=
          scanDeclarations (λ init, scanNode init false) kind declarations this in
        (VariableDeclaration kind declarations', this1,
         variables ← completion;
         svNode ← newSVDefinition variables;
         Ok (Some svNode))
    | OtherNode _ _ =>
        (node, this, Ok None)
    end in
  (node',
   match completion with
   | Ok (Some svNode) => if isForRoot then push svNode this1 else this1
   | _ => this1
   end,
   completion).

(** The loop of [parse] over [tree.program.body]: [this.scanNode(node)], with
    [isForRoot] at its default [true]; a throw ends the loop. *)
Fixpoint scanBody (body : list Node) (this : Parser)
  : list Node * Parser * result unit :=
  match body with
  | [] => ([], this, Ok tt)
  | node :: rest =>
      let '(node', this1, completion) := scanNode node true this in
      match completion with
      | Ok _ =>
          let '(rest', this2, completion2) := scanBody rest this1 in
          (node' :: rest', this2, completion2)
      | _ => (node' :: rest, this1, abrupt completion)
      end
  end.

(** [declarator.id.type === 'Identifier'], for a pattern [id] of a declarator. *)
Definition isIdentifier (node : Node) : bool :=
  match node with
  | Identifier _ => true
  | _ => false
  end.

(** The parser after a scan of [this] that completed with [completion]. *)
Definition rootPush (isForRoot : bool) (completion : result (option SVNode))
    (this : Parser) : Parser :=
  match completion with
  | Ok (Some svNode) => if isForRoot then push svNode this else this
  | _ => this
  end.

(** The [Identifier] visitor of the pre-pass, for one identifier [name] and
    the answer [isGlobal] of [path.scope.hasGlobal(name)]. *)
Definition visitIdentifier (this : Parser) (visit : string * bool) : Parser :=
  let '(name, isGlobal) := visit in
  if negb isGlobal || bool_decide (name ∈ globals this) then this
  else mkParser ({[name]} ∪ globals this) (nodesRoot this).

(** [identifierPaths] stands for Babel's [traverse] and scope analysis, which
    are not part of the repository: the identifiers of a program in visiting
    order, each with the answer of [hasGlobal]. *)
Variable identifierPaths : list Node → list (string * bool).

(** [parse], from the parsed tree on ([parseCode] is Babel's parser): the
    program's body and the parser as the call leaves them, and the returned
    [nodesRoot] when nothing was thrown. *)
Definition parse (body : list Node) (this : Parser)
  : list Node * Parser * result (list SVNode) :=
  let this1 := foldl visitIdentifier this (identifierPaths body) in
  let '(body', this2, completion) := scanBody body this1 in
  (body', this2, _ ← completion; Ok (nodesRoot this2)).

End Nodes.

Arguments JSUndefined {number}.
Arguments JSNull {number}.
Arguments JSBoolean {number} _.
Arguments JSNumber {number} _.
Arguments JSBigInt {number} _.
Arguments JSString {number} _.
Arguments JSSymbol {number} _.
Arguments JSFunction {number} _.
Arguments JSObject {number} _.
Arguments typeof {number} _.
Arguments SVLiteral {number} _.
Arguments SVBinaryExpression {number} _ _ _.
Arguments SVLogicalExpression {number} _ _ _.
Arguments SVUnaryExpression {number} _ _.
Arguments SVArrayExpression {number} _.
Arguments SVCallExpression {number} _ _.
Arguments SVMemberExpression {number} _ _.
Arguments SVAssignmentExpression {number} _ _ _ _.
Arguments SVIdentifier {number} _ _.
Arguments SVVariableDefinition {number} _.
Arguments nodeType {number} _.
Arguments newSVLiteral {number} _ _.
Arguments newSVAssignmentExpression {number} _ _ _.
Arguments StringLiteral {number} _.
Arguments NumericLiteral {number} _.
Arguments BooleanLiteral {number} _.
Arguments BinaryExpression {number} _ _ _.
Arguments LogicalExpression {number} _ _ _.
Arguments UnaryExpression {number} _ _.
Arguments ArrayExpression {number} _.
Arguments ExpressionStatement {number} _.
Arguments Identifier {number} _.
Arguments VariableDeclaration {number} _ _.
Arguments OtherNode {number} _ _.
Arguments mkParser {number} _ _.
Arguments globals {number} _.
Arguments nodesRoot {number} _.
Arguments newParser {number}.
Arguments push {number} _ _.
Arguments scanNode {number} _ _ _.
Arguments scanBody {number} _ _.
Arguments isIdentifier {number} _.
Arguments rootPush {number} _ _ _.
Arguments visitIdentifier {number} _ _.
Arguments parse {number} _ _ _.
Arguments abrupt {A B} _.
Arguments newSVDefinition {number} _.
Arguments scanElement {number} _ _ _.
Arguments scanDeclarations {number} _ _ _ _.
Arguments runEach {number} _ _.

(** ** Stores the class builds, and relations along a chain of scopes *)

Section ScopeRelations.

Context {number : Type}.
Implicit Types (h : list (SVScope number)) (name : string).

(** The stores a program can reach with the class alone: it starts with no
    scope, constructs scopes (a parent handed to the constructor is a scope
    that exists already) and calls [defineVariable]. *)
Inductive built : list (SVScope number) → Prop :=
| built_empty : built []
| built_new h id parent :
    built h → (∀ p, parent = Some p → p < length h) →
    built (newSVScope id parent h).1
| built_define h a name kind constant h' d :
    built h → defineVariable h a name kind constant = Ok (h', d) → built h'.

(** The [scope] field of every binding is the scope that holds it. *)
Definition bindings_owned h : Prop :=
  ∀ a s name d, h !! a = Some s → variables s !! name = Some d → def_scope d = a.

(** [b] is [a] or one of its ancestors. *)
Inductive onChain h : addr → addr → Prop :=
| onChain_self a s : h !! a = Some s → onChain h a a
| onChain_parent a s p b :
    h !! a = Some s → parent s = Some p → onChain h p b → onChain h a b.

(** [b] is [a] or one of its ancestors, and no scope from [a] up to, and not
    including, [b] binds [name]. *)
Inductive unboundUntil h name : addr → addr → Prop :=
| unbound_stop b : unboundUntil h name b b
| unbound_step a s p b :
    h !! a = Some s → variables s !! name = None → parent s = Some p →
    unboundUntil h name p b → unboundUntil h name a b.

End ScopeRelations.


(** The kinds for which [scanNode] can return a node: the literals, the
    binary, logical and unary expressions, the array literal and the
    identifier.  An expression statement and a kind without a case leave
    [svNode] undefined, and the declaration statement's case throws at
    [new SVDefinition]. *)
Definition producesNode {number : Type} (node : Node number) : bool :=
  match node with
  | ExpressionStatement _ | OtherNode _ _ | VariableDeclaration _ _ => false
  | _ => true
  end.


(** ** Properties of a scan, as used in the inductions over the tree *)

(** A scan of [node] that is not for the root returns or throws, and leaves
    the parser as it was. *)
Definition completes_in_place {number : Type} (node : Node number) : Prop :=
  ∀ this, ∃ node' completion,
    scanNode node false this = (node', this, completion) ∧ completion ≠ Stuck.

(** A scan of [node] reads the parser's global names and nothing else of
    it. *)
Definition reads_globals_only {number : Type} (node : Node number) : Prop :=
  ∀ this that, globals this = globals that →
    ∃ node' completion,
      scanNode node false this = (node', this, completion)
      ∧ scanNode node false that = (node', that, completion).

(** When a scan of [node] returns, a scan of the tree it left returns too
    and leaves [node] again. *)
Definition restores {number : Type} (node : Node number) : Prop :=
  ∀ this that node' svNode,
    scanNode node false this = (node', this, Ok svNode) →
    ∃ svNode2, scanNode node' false that = (node, that, Ok svNode2).
(** * Properties of the scope model *)

Section ScopeProperties.

Context {number : Type}.
Implicit Types (h : list (SVScope number)) (s : SVScope number).
Implicit Types (a p : addr) (name : string) (d : SVScopeDefinition).

Lemma has_true s name : has s name = true ↔ is_Some (variables s !! name).
Proof. unfold has. apply bool_decide_eq_true. Qed.

Lemma has_false s name : has s name = false ↔ variables s !! name = None.
Proof.
  unfold has. rewrite bool_decide_eq_false. split.
  - intros Hno. destruct (variables s !! name) eqn:E; [|done].
    exfalso. apply Hno. by eexists.
  - intros -> [? ?]. done.
Qed.

Lemma hasVariable_at h a s name :
  h !! a = Some s → hasVariable h a name = Ok (has s name).
Proof. intros Ha. unfold hasVariable. by rewrite Ha. Qed.

Lemma getVariable_bound h a s name d :
  h !! a = Some s → variables s !! name = Some d → getVariable h a name = Ok d.
Proof. intros Ha Hd. unfold getVariable. rewrite Ha, Hd. reflexivity. Qed.

Lemma getVariable_unbound h a s name :
  h !! a = Some s → variables s !! name = None →
  getVariable h a name = Throw (name +:+ " is not defined.").
Proof. intros Ha Hd. unfold getVariable. rewrite Ha, Hd. reflexivity. Qed.

(** *** The store stays well formed *)

Lemma heap_wf_nil : heap_wf (@nil (SVScope number)).
Proof. intros a s p Ha. by rewrite lookup_nil in Ha. Qed.

Lemma heap_wf_newSVScope h (id : number) (par : option addr) :
  heap_wf h → (∀ p, par = Some p → p < length h) →
  heap_wf (newSVScope id par h).1.
Proof.
  intros Hwf Hpar a s p Ha Hp. simpl in Ha.
  apply lookup_app_Some in Ha as [Ha | [Hlen Ha]].
  - by eapply Hwf.
  - destruct (a - length h) as [|k] eqn:Hk; simpl in Ha; [|by rewrite lookup_nil in Ha].
    injection Ha as <-. simpl in Hp. apply Hpar in Hp. lia.
Qed.

Lemma defineVariable_ok h a s name kind constant :
  h !! a = Some s → negb (has s name) || is_var kind = true →
  defineVariable h a name kind constant =
    Ok (<[a := mkSVScope (scope_id s) (parent s)
                 (<[name := mkSVScopeDefinition (size (variables s)) kind constant a]>
                    (variables s))]> h,
        mkSVScopeDefinition (size (variables s)) kind constant a).
Proof. intros Ha Hc. unfold defineVariable. rewrite Ha. simpl. rewrite Hc. reflexivity. Qed.

Lemma defineVariable_throws h a s name kind constant :
  h !! a = Some s → negb (has s name) || is_var kind = false →
  defineVariable h a name kind constant = Throw (name +:+ " is already defined.").
Proof. intros Ha Hc. unfold defineVariable. rewrite Ha. simpl. rewrite Hc. reflexivity. Qed.

Lemma defineVariable_inv h a name kind constant h' d :
  defineVariable h a name kind constant = Ok (h', d) →
  ∃ s, h !! a = Some s
       ∧ negb (has s name) || is_var kind = true
       ∧ d = mkSVScopeDefinition (size (variables s)) kind constant a
       ∧ h' = <[a := mkSVScope (scope_id s) (parent s) (<[name := d]> (variables s))]> h.
Proof.
  unfold defineVariable. destruct (h !! a) as [s|] eqn:Ha; [|done].
  simpl. destruct (negb (has s name) || is_var kind) eqn:Hc; simpl; [|done].
  intros [= <- <-]. by exists s.
Qed.

Lemma heap_wf_defineVariable h a name kind constant h' d :
  heap_wf h → defineVariable h a name kind constant = Ok (h', d) → heap_wf h'.
Proof.
  intros Hwf Hdef. apply defineVariable_inv in Hdef as (s & Ha & _ & _ & ->).
  intros b sb p Hb Hp. destruct (decide (a = b)) as [<-|Hne].
  - rewrite list_lookup_insert_eq in Hb by (by eapply lookup_lt_Some).
    injection Hb as <-. simpl in Hp. by eapply Hwf.
  - rewrite list_lookup_insert_ne in Hb by done. by eapply Hwf.
Qed.

(** *** What [hasVariableInParentRoot] looks at *)

Lemma hasVariableInParentRoot_true h a s name :
  h !! a = Some s →
  hasVariableInParentRoot h a name = Ok true ↔
    is_Some (variables s !! name)
    ∨ ∃ p sp, parent s = Some p ∧ h !! p = Some sp ∧ is_Some (variables sp !! name).
Proof.
  intros Ha. unfold hasVariableInParentRoot. rewrite Ha.
  destruct (has s name) eqn:Hs.
  - apply has_true in Hs. naive_solver.
  - apply has_false in Hs. destruct (parent s) as [p|] eqn:Hp.
    + unfold hasVariable. destruct (h !! p) as [sp|] eqn:Hsp.
      * split.
        -- intros [= Hh]. apply has_true in Hh. right. by exists p, sp.
        -- intros [[? Hx] | (p' & sp' & [= <-] & Hl & Hx)]; [congruence|].
           rewrite Hsp in Hl. injection Hl as <-. f_equal. by apply has_true.
      * split; [done|]. intros [[? Hx] | (p' & sp' & [= <-] & Hl & _)]; congruence.
    + split; [done|]. intros [[? Hx] | (p' & sp' & ? & _)]; congruence.
Qed.

(** *** Chained lookup *)

Lemma resolvesTo_bound h name a d : resolvesTo h name a d → boundInChain h name a.
Proof.
  induction 1 as [a s d Ha Hd | a s p d Ha Hn Hp _ IH].
  - eapply bound_here; eauto.
  - eapply bound_above; eauto.
Qed.

Lemma getVariableInParentRoot_resolves h name fuel : heap_wf h →
  ∀ a, a < length h → a < fuel →
  (∀ d, resolvesTo h name a d ↔ getVariableInParentRoot fuel h a name = Ok d)
  ∧ (¬ boundInChain h name a ↔
       getVariableInParentRoot fuel h a name = Throw (name +:+ " is not defined.")).
Proof.
  intros Hwf. induction fuel as [|fuel IH]; intros a Hlen Hfuel; [lia|].
  destruct (lookup_lt_is_Some_2 h a Hlen) as [s Ha].
  cbn [getVariableInParentRoot]. rewrite Ha, (hasVariable_at _ _ _ _ Ha). cbn [mbind result_bind].
  destruct (has s name) eqn:Hs.
  - apply has_true in Hs as [d0 Hd0].
    rewrite (getVariable_bound _ _ _ _ _ Ha Hd0). split.
    + intros d. split.
      * intros Hr. inversion Hr; simplify_eq. done.
      * intros [= <-]. eapply resolves_here; eauto.
    + split; [|done]. intros Hno. exfalso. apply Hno.
      eapply bound_here; eauto.
  - apply has_false in Hs. destruct (parent s) as [p|] eqn:Hp.
    + assert (p < a) as Hpa by (by eapply Hwf).
      destruct (IH p) as [IHr IHu]; [lia | lia |]. split.
      * intros d. rewrite <- IHr. split.
        -- intros Hr. inversion Hr; simplify_eq. done.
        -- intros Hr. eapply resolves_above; eauto.
      * rewrite <- IHu. split.
        -- intros Hno Hb. apply Hno. eapply bound_above; eauto.
        -- intros Hno Hb. inversion Hb; simplify_eq.
           ++ match goal with H : is_Some _ |- _ => destruct H; congruence end.
           ++ done.
    + split.
      * intros d. split; [|done].
        intros Hr. inversion Hr; simplify_eq.
      * split; [done|]. intros _ Hb. inversion Hb; simplify_eq.
        match goal with H : is_Some _ |- _ => destruct H; congruence end.
Qed.

(** The chained lookup always comes to an answer on a well-formed store: it
    returns a binding or throws, and is never stuck. *)
Lemma getVariableInParentRoot_total h name fuel a :
  heap_wf h → a < length h → a < fuel →
  (∃ d, getVariableInParentRoot fuel h a name = Ok d)
  ∨ getVariableInParentRoot fuel h a name = Throw (name +:+ " is not defined.").
Proof.
  intros Hwf. revert a. induction fuel as [|fuel IH]; intros a Hlen Hfuel; [lia|].
  destruct (lookup_lt_is_Some_2 h a Hlen) as [s Ha].
  cbn [getVariableInParentRoot]. rewrite Ha, (hasVariable_at _ _ _ _ Ha). cbn [mbind result_bind].
  destruct (has s name) eqn:Hs.
  - apply has_true in Hs as [d0 Hd0].
    rewrite (getVariable_bound _ _ _ _ _ Ha Hd0). left. by exists d0.
  - destruct (parent s) as [p|] eqn:Hp; [|by right].
    assert (p < a) as Hpa by (by eapply Hwf).
    apply IH; lia.
Qed.

End ScopeProperties.

(** *** Runs of [defineVariable] on one scope *)

Section DefineRuns.

Context {number : Type}.
Implicit Types (h : list (SVScope number)) (s : SVScope number).
Implicit Types (a : addr) (d : SVScopeDefinition).
Implicit Types (calls : list (string * SVScopeDefinitionKindType * bool)).

Lemma defineAll_cons_inv h a name kind constant calls h' ds :
  defineAll h a ((name, kind, constant) :: calls) = Ok (h', ds) →
  ∃ h1 d ds', defineVariable h a name kind constant = Ok (h1, d)
              ∧ defineAll h1 a calls = Ok (h', ds') ∧ ds = d :: ds'.
Proof.
  cbn [defineAll]. destruct (defineVariable h a name kind constant) as [[h1 d]| |];
    cbn [mbind result_bind]; [|done..].
  destruct (defineAll h1 a calls) as [[h2 ds']| |] eqn:Hrest;
    cbn [mbind result_bind]; [|done..].
  intros [= <- <-]. by exists h1, d, ds'.
Qed.

Lemma defineVariable_scope_after h a s name kind constant h' d :
  h !! a = Some s → defineVariable h a name kind constant = Ok (h', d) →
  def_id d = size (variables s)
  ∧ h' !! a = Some (mkSVScope (scope_id s) (parent s) (<[name := d]> (variables s))).
Proof.
  intros Ha Hdef. apply defineVariable_inv in Hdef as (s0 & Ha0 & _ & -> & ->).
  rewrite Ha in Ha0. injection Ha0 as <-. split; [done|].
  apply list_lookup_insert_eq. by eapply lookup_lt_Some.
Qed.

Lemma defineAll_length h a calls h' ds :
  defineAll h a calls = Ok (h', ds) → length ds = length calls.
Proof.
  revert h h' ds. induction calls as [|[[name kind] constant] calls IH]; intros h h' ds.
  - by intros [= <- <-].
  - intros (h1 & d & ds' & _ & Hrest & ->)%defineAll_cons_inv.
    simpl. f_equal. by eapply IH.
Qed.

(** The binding a call returns carries the size the scope's map had when the
    call was made, that is, after the calls before it. *)
Lemma defineAll_nth h a s calls h' ds i d :
  h !! a = Some s → defineAll h a calls = Ok (h', ds) → ds !! i = Some d →
  ∃ hi si, defineAll h a (take i calls) = Ok (hi, take i ds)
           ∧ hi !! a = Some si ∧ def_id d = size (variables si).
Proof.
  revert h s h' ds i.
  induction calls as [|[[name kind] constant] calls IH]; intros h s h' ds i Ha.
  - intros [= <- <-]. by rewrite lookup_nil.
  - intros (h1 & d0 & ds' & Hdef & Hrest & ->)%defineAll_cons_inv Hi.
    destruct (defineVariable_scope_after _ _ _ _ _ _ _ _ Ha Hdef) as [Hid Ha1].
    destruct i as [|i].
    + injection Hi as <-. exists h, s. by rewrite !take_0.
    + simpl in Hi. destruct (IH _ _ _ _ _ Ha1 Hrest Hi) as (hi & si & Hpre & Hsi & Hsz).
      exists hi, si. split; [|done].
      cbn [take defineAll]. rewrite Hdef. cbn [mbind result_bind].
      rewrite Hpre. reflexivity.
Qed.

(** After a run the scope binds what it bound before and the names of the
    calls, and every binding it holds was there before or was returned by
    the call that defined its name. *)
Lemma defineAll_scope_after h a s calls h' ds :
  h !! a = Some s → defineAll h a calls = Ok (h', ds) →
  ∃ s', h' !! a = Some s'
        ∧ dom (variables s') = dom (variables s) ∪ list_to_set (callNames calls)
        ∧ ∀ n d, variables s' !! n = Some d →
            variables s !! n = Some d
            ∨ ∃ i, callNames calls !! i = Some n ∧ ds !! i = Some d.
Proof.
  revert h s h' ds.
  induction calls as [|[[name kind] constant] calls IH]; intros h s h' ds Ha.
  - intros [= <- <-]. exists s. split; [done|]. split; [|by left].
    simpl. set_solver.
  - intros (h1 & d0 & ds' & Hdef & Hrest & ->)%defineAll_cons_inv.
    destruct (defineVariable_scope_after _ _ _ _ _ _ _ _ Ha Hdef) as [Hid Ha1].
    destruct (IH _ _ _ _ Ha1 Hrest) as (s' & Hs' & Hdom & Hin).
    exists s'. split; [done|]. split.
    + rewrite Hdom. cbn [variables callNames map fst]. rewrite dom_insert_L.
      cbn [list_to_set]. set_solver.
    + intros n d Hn. destruct (Hin n d Hn) as [Hold | (i & Hi & Hd)].
      * cbn [variables] in Hold. destruct (decide (name = n)) as [<-|Hne].
        -- rewrite lookup_insert_eq in Hold. injection Hold as <-.
           right. by exists 0.
        -- rewrite lookup_insert_ne in Hold by done. by left.
      * right. by exists (S i).
Qed.

Lemma callNames_take calls i : callNames (take i calls) = take i (callNames calls).
Proof. unfold callNames. revert i. induction calls; intros [|i]; simpl; f_equal; auto. Qed.

(** The id of the [i]-th binding counts the names bound before the run
    together with the names of the [i] calls before it. *)
Lemma defineAll_id_count h a s calls h' ds i d :
  h !! a = Some s → defineAll h a calls = Ok (h', ds) → ds !! i = Some d →
  def_id d = size (dom (variables s) ∪ list_to_set (take i (callNames calls))).
Proof.
  intros Ha Hrun Hi.
  destruct (defineAll_nth _ _ _ _ _ _ _ _ Ha Hrun Hi) as (hi & si & Hpre & Hsi & ->).
  destruct (defineAll_scope_after _ _ _ _ _ _ Ha Hpre) as (si' & Hsi' & Hdom & _).
  rewrite Hsi in Hsi'. injection Hsi' as <-.
  by rewrite <- size_dom, Hdom, callNames_take.
Qed.

Lemma size_union_singleton_bounds (X : gset string) (n : string) :
  size X ≤ size (X ∪ {[n]}) ≤ S (size X).
Proof.
  split.
  - apply subseteq_size. set_solver.
  - destruct (decide (n ∈ X)) as [Hin|Hout].
    + replace (X ∪ {[n]}) with X by set_solver. lia.
    + rewrite size_union by set_solver. rewrite size_singleton. lia.
Qed.

Lemma defineAll_id_step h a s calls h' ds i d d' :
  h !! a = Some s → defineAll h a calls = Ok (h', ds) →
  ds !! i = Some d → ds !! S i = Some d' →
  def_id d ≤ def_id d' ≤ S (def_id d).
Proof.
  intros Ha Hrun Hi HSi.
  rewrite (defineAll_id_count _ _ _ _ _ _ _ _ Ha Hrun Hi).
  rewrite (defineAll_id_count _ _ _ _ _ _ _ _ Ha Hrun HSi).
  assert (i < length (callNames calls)) as Hlt.
  { unfold callNames. rewrite length_map, <- (defineAll_length _ _ _ _ _ Hrun).
    by eapply lookup_lt_Some. }
  destruct (lookup_lt_is_Some_2 _ _ Hlt) as [n Hn].
  rewrite (take_S_r _ _ _ Hn), list_to_set_app_L. cbn [list_to_set].
  replace (dom (variables s) ∪ (list_to_set (take i (callNames calls)) ∪ ({[n]} ∪ ∅)))
    with ((dom (variables s) ∪ list_to_set (take i (callNames calls))) ∪ {[n]})
    by set_solver.
  apply size_union_singleton_bounds.
Qed.

Lemma size_list_to_set_take_NoDup (l : list string) i :
  NoDup l → i ≤ length l → size (list_to_set (take i l) : gset string) = i.
Proof.
  intros Hnd Hi. rewrite size_list_to_set.
  - rewrite length_take. lia.
  - rewrite <- (take_drop i l) in Hnd. by apply NoDup_app in Hnd as [? _].
Qed.

End DefineRuns.

(** *** Claims about the scope model *)

Section ScopeClaims.

Context {number : Type}.
Implicit Types (h : list (SVScope number)) (s : SVScope number).
Implicit Types (a : addr) (name : string) (d : SVScopeDefinition).
Implicit Types (calls : list (string * SVScopeDefinitionKindType * bool)).

(** C2, as amended: [defineVariable] looks at the new kind only.  When the
    name is not yet bound in the scope the call succeeds; when it is bound,
    whatever the kind of the existing binding, the call succeeds if the new
    kind is [var] and throws "<name> is already defined." if the new kind is
    [let] or [const].  A successful call returns the binding it stored. *)
Theorem defineVariable_redefinition h a s name kind constant :
  h !! a = Some s →
  let stored := mkSVScopeDefinition (size (variables s)) kind constant a in
  let succeeds :=
    ∃ h' s', defineVariable h a name kind constant = Ok (h', stored)
             ∧ h' !! a = Some s' ∧ variables s' !! name = Some stored in
  (variables s !! name = None → succeeds)
  ∧ (∀ old, variables s !! name = Some old →
       (kind = KVar → succeeds)
       ∧ (kind ≠ KVar →
            defineVariable h a name kind constant
            = Throw (name +:+ " is already defined."))).
Proof.
  intros Ha stored succeeds.
  assert (negb (has s name) || is_var kind = true → succeeds) as Hok.
  { intros Hc. unfold succeeds, stored. rewrite (defineVariable_ok _ _ _ _ _ constant Ha Hc).
    eexists _, _. split; [reflexivity|]. split.
    - apply list_lookup_insert_eq. by eapply lookup_lt_Some.
    - cbn [variables]. apply lookup_insert_eq. }
  split.
  - intros Hnone. apply Hok. apply has_false in Hnone. by rewrite Hnone.
  - intros old Hold. split.
    + intros ->. apply Hok. apply orb_true_r.
    + intros Hkind. apply defineVariable_throws with (s := s); [done|].
      assert (has s name = true) as -> by (apply has_true; by eexists).
      by destruct kind.
Qed.

(** C3, as amended: the id of every binding a run of successful
    [defineVariable] calls creates is the number of bindings the scope held
    when the call was made; from one call to the next the id stays or grows
    by one; and on a scope that starts empty the first id is 0 and, when the
    names defined are pairwise different, the ids are 0, 1, 2, ... in call
    order and bindings of different names have different ids. *)
Theorem defineVariable_ids h a s calls h' ds :
  h !! a = Some s → defineAll h a calls = Ok (h', ds) →
  (∀ i d, ds !! i = Some d →
     ∃ hi si, defineAll h a (take i calls) = Ok (hi, take i ds)
              ∧ hi !! a = Some si ∧ def_id d = size (variables si))
  ∧ (∀ i d d', ds !! i = Some d → ds !! S i = Some d' →
       def_id d ≤ def_id d' ≤ S (def_id d))
  ∧ (variables s = ∅ →
       (∀ d, ds !! 0 = Some d → def_id d = 0)
       ∧ (NoDup (callNames calls) →
            (∀ i d, ds !! i = Some d → def_id d = i)
            ∧ ∀ s' n1 n2 d1 d2,
                h' !! a = Some s' → n1 ≠ n2 →
                variables s' !! n1 = Some d1 → variables s' !! n2 = Some d2 →
                def_id d1 ≠ def_id d2)).
Proof.
  intros Ha Hrun.
  assert (variables s = ∅ → NoDup (callNames calls) →
          ∀ i d, ds !! i = Some d → def_id d = i) as Hdense.
  { intros Hempty Hnd i d Hi.
    rewrite (defineAll_id_count _ _ _ _ _ _ _ _ Ha Hrun Hi), Hempty, dom_empty_L.
    rewrite (left_id_L ∅ (∪)). apply size_list_to_set_take_NoDup; [done|].
    unfold callNames. rewrite length_map, <- (defineAll_length _ _ _ _ _ Hrun).
    apply Nat.lt_le_incl. by eapply lookup_lt_Some. }
  split; [|split; [|intros Hempty; split; [|intros Hnd; split]]].
  - intros i d Hi. by eapply defineAll_nth.
  - intros i d d' Hi HSi. by eapply defineAll_id_step.
  - intros d Hd.
    rewrite (defineAll_id_count _ _ _ _ _ _ _ _ Ha Hrun Hd), Hempty, dom_empty_L.
    rewrite take_0. cbn [list_to_set]. rewrite (left_id_L ∅ (∪)). apply size_empty.
  - by apply Hdense.
  - intros s' n1 n2 d1 d2 Hs' Hne H1 H2.
    destruct (defineAll_scope_after _ _ _ _ _ _ Ha Hrun) as (s'' & Hs'' & _ & Hin).
    rewrite Hs' in Hs''. injection Hs'' as <-.
    destruct (Hin _ _ H1) as [Hold1 | (i1 & Hn1 & Hd1)];
      [by rewrite Hempty, lookup_empty in Hold1|].
    destruct (Hin _ _ H2) as [Hold2 | (i2 & Hn2 & Hd2)];
      [by rewrite Hempty, lookup_empty in Hold2|].
    rewrite (Hdense Hempty Hnd _ _ Hd1), (Hdense Hempty Hnd _ _ Hd2).
    intros <-. congruence.
Qed.

(** C6: on a store whose [parent] references are well formed, the chained
    lookup from a scope returns exactly the binding of the name in the nearest
    scope that binds it, the scope itself first and then its ancestors in
    order, however far up that is; and it throws "<name> is not defined."
    exactly when no scope of the chain binds the name.  [fuel] only has to
    exceed the scope's address. *)
Theorem getVariableInParentRoot_chain h a name fuel :
  heap_wf h → a < length h → a < fuel →
  (∀ d, resolvesTo h name a d ↔ getVariableInParentRoot fuel h a name = Ok d)
  ∧ (¬ boundInChain h name a ↔
       getVariableInParentRoot fuel h a name = Throw (name +:+ " is not defined.")).
Proof. intros Hwf Hlen Hfuel. by apply getVariableInParentRoot_resolves. Qed.

End ScopeClaims.

(** *** A chain of three nested scopes *)

(** [nestedScopes] is what the constructor and one [defineVariable] call
    build. *)
Lemma nestedScopes_built :
  (let '(h0, outer) := newSVScope 0%Z None [] in
   let '(h1, middle) := newSVScope 1%Z (Some outer) h0 in
   let '(h2, inner) := newSVScope 2%Z (Some middle) h1 in
   defineVariable h2 outer "x" KLet false)
  = Ok (nestedScopes, mkSVScopeDefinition 0 KLet false 0).
Proof. reflexivity. Qed.

(** C1: the name [x] is bound in the outermost of three nested scopes, the
    chained lookup from the innermost scope finds it, and
    [hasVariableInParentRoot] on the innermost scope answers [false]: it asks
    the scope and its parent, and no scope further out. *)
Theorem hasVariableInParentRoot_stops_at_parent :
  boundInChain nestedScopes "x" 2
  ∧ getVariableInParentRoot 3 nestedScopes 2 "x"
    = Ok (mkSVScopeDefinition 0 KLet false 0)
  ∧ hasVariableInParentRoot nestedScopes 2 "x" = Ok false.
Proof.
  split; [|split; reflexivity].
  eapply bound_above; [reflexivity..|].
  eapply bound_above; [reflexivity..|].
  eapply bound_here; [reflexivity|]. by eexists.
Qed.

(** C2, the claim as stated fails: [x] is bound with kind [let], and defining
    it again with kind [var] succeeds and replaces the binding. *)
Lemma defineVariable_var_over_let :
  (∃ s old, nestedScopes !! 0 = Some s ∧ variables s !! "x" = Some old
            ∧ def_kind old = KLet)
  ∧ defineVariable nestedScopes 0 "x" KVar false
    = Ok ([ mkSVScope 0%Z None {["x" := mkSVScopeDefinition 1 KVar false 0]};
            mkSVScope 1%Z (Some 0) ∅;
            mkSVScope 2%Z (Some 1) ∅ ],
          mkSVScopeDefinition 1 KVar false 0).
Proof.
  split; [|reflexivity].
  eexists _, _. split; [reflexivity|]. split; reflexivity.
Qed.

Lemma defineVariable_redefinition_witness :
  defineVariable nestedScopes 0 "x" KConst true = Throw "x is already defined."
  ∧ ∃ h' s', defineVariable nestedScopes 0 "y" KConst true
             = Ok (h', mkSVScopeDefinition 1 KConst true 0)
             ∧ h' !! 0 = Some s'
             ∧ variables s' !! "y" = Some (mkSVScopeDefinition 1 KConst true 0).
Proof.
  split.
  - destruct (defineVariable_redefinition nestedScopes 0 _ "x" KConst true eq_refl)
      as [_ Hbound].
    destruct (Hbound (mkSVScopeDefinition 0 KLet false 0) eq_refl) as [_ Hthrow].
    apply Hthrow. discriminate.
  - destruct (defineVariable_redefinition nestedScopes 0 _ "y" KConst true eq_refl)
      as [Hfree _].
    apply Hfree. reflexivity.
Defined.

(** C3, the claim as stated fails: after [var v], [var v] again and [var w]
    on a new scope, all three calls succeed, the ids handed out are 0, 1, 1,
    and the bindings of [v] and [w] that the scope holds both have id 1. *)
Lemma defineVariable_shared_id :
  ∃ h s,
    defineAll (newSVScope 0%Z None []).1 0
      [("v", KVar, false); ("v", KVar, false); ("w", KVar, false)]
    = Ok (h, [ mkSVScopeDefinition 0 KVar false 0;
               mkSVScopeDefinition 1 KVar false 0;
               mkSVScopeDefinition 1 KVar false 0 ])
    ∧ h !! 0 = Some s
    ∧ variables s !! "v" = Some (mkSVScopeDefinition 1 KVar false 0)
    ∧ variables s !! "w" = Some (mkSVScopeDefinition 1 KVar false 0).
Proof. eexists _, _. split; [reflexivity|]. split; [reflexivity|]. split; reflexivity. Qed.

Lemma defineVariable_ids_witness :
  ∃ h' d0 d1,
    defineAll (newSVScope 0%Z None []).1 0 [("a", KLet, false); ("b", KConst, true)]
    = Ok (h', [d0; d1])
    ∧ def_id d0 = 0 ∧ def_id d1 = 1.
Proof.
  eexists _, _, _. split; [reflexivity|].
  destruct (defineVariable_ids (newSVScope 0%Z None []).1 0 _
              [("a", KLet, false); ("b", KConst, true)] _ _ eq_refl eq_refl)
    as (_ & _ & Hfresh).
  destruct (Hfresh eq_refl) as [_ Hdistinct].
  assert (NoDup (callNames [("a", KLet, false); ("b", KConst, true)])) as Hnd.
  { repeat constructor; set_solver. }
  destruct (Hdistinct Hnd) as [Hdense _].
  split; [exact (Hdense 0 _ eq_refl) | exact (Hdense 1 _ eq_refl)].
Defined.

Lemma getVariableInParentRoot_chain_witness :
  getVariableInParentRoot 3 nestedScopes 2 "x" = Ok (mkSVScopeDefinition 0 KLet false 0)
  ∧ getVariableInParentRoot 3 nestedScopes 2 "y" = Throw "y is not defined.".
Proof.
  assert (heap_wf nestedScopes) as Hwf.
  { intros a s p Ha Hp.
    destruct a as [|[|[|a]]]; simpl in Ha; simplify_eq; simpl in Hp; simplify_eq; lia. }
  assert (2 < length nestedScopes) as Hlen by (simpl; lia).
  assert (2 < 3) as Hfuel by lia.
  split.
  - destruct (getVariableInParentRoot_chain nestedScopes 2 "x" 3 Hwf Hlen Hfuel)
      as [Hfound _].
    apply Hfound.
    eapply resolves_above; [reflexivity..|].
    eapply resolves_above; [reflexivity..|].
    eapply resolves_here; reflexivity.
  - destruct (getVariableInParentRoot_chain nestedScopes 2 "y" 3 Hwf Hlen Hfuel)
      as [_ Hmissing].
    apply Hmissing. intros Hb.
    inversion Hb as [? ? Hs [? Hx] | ? ? ? Hs Hp Hb1];
      injection Hs as <-; [discriminate Hx | injection Hp as <-].
    inversion Hb1 as [? ? Hs [? Hx] | ? ? ? Hs Hp Hb0];
      injection Hs as <-; [discriminate Hx | injection Hp as <-].
    inversion Hb0 as [? ? Hs [? Hx] | ? ? ? Hs Hp Hb'];
      injection Hs as <-; [discriminate Hx | discriminate Hp].
Defined.

(** * Properties of the transformation pass *)

(** Induction over a Babel tree, with the hypothesis available for the
    elements of an array literal and for the initializers of a declaration:
    the nodes the pass goes into. *)
Section NodeInduction.

Context {number : Type}.
Variable P : Node number → Prop.

Hypothesis P_StringLiteral : ∀ value, P (StringLiteral value).
Hypothesis P_NumericLiteral : ∀ value, P (NumericLiteral value).
Hypothesis P_BooleanLiteral : ∀ value, P (BooleanLiteral value).
Hypothesis P_BinaryExpression : ∀ l r operator,
  P l → P r → P (BinaryExpression l r operator).
Hypothesis P_LogicalExpression : ∀ l r operator,
  P l → P r → P (LogicalExpression l r operator).
Hypothesis P_UnaryExpression : ∀ argument operator,
  P argument → P (UnaryExpression argument operator).
Hypothesis P_ArrayExpression : ∀ elements,
  Forall (λ element, ∀ node, element = Some node → P node) elements →
  P (ArrayExpression elements).
Hypothesis P_ExpressionStatement : ∀ expression,
  P expression → P (ExpressionStatement expression).
Hypothesis P_Identifier : ∀ name, P (Identifier name).
Hypothesis P_VariableDeclaration : ∀ kind declarations,
  Forall (λ declarator, ∀ init, decl_init declarator = Some init → P init) declarations →
  P (VariableDeclaration kind declarations).
Hypothesis P_OtherNode : ∀ type children, P (OtherNode type children).

Lemma Node_scan_ind : ∀ node, P node.
Proof.
  fix IH 1. intros node. destruct node as
    [ value | value | value | l r operator | l r operator | argument operator
    | elements | expression | name | kind declarations | type children ].
  - apply P_StringLiteral.
  - apply P_NumericLiteral.
  - apply P_BooleanLiteral.
  - apply P_BinaryExpression; apply IH.
  - apply P_LogicalExpression; apply IH.
  - apply P_UnaryExpression; apply IH.
  - apply P_ArrayExpression.
    induction elements as [|element elements IHelements]; constructor.
    + destruct element as [node|]; intros node' [= <-]. apply IH.
    + exact IHelements.
  - apply P_ExpressionStatement; apply IH.
  - apply P_Identifier.
  - apply P_VariableDeclaration.
    induction declarations as [|[pattern init] declarations IHdeclarations]; constructor.
    + destruct init as [init|]; intros init' [= <-]. apply IH.
    + exact IHdeclarations.
  - apply P_OtherNode.
Qed.

End NodeInduction.

Section PassLemmas.

Context {number : Type}.
Implicit Types (node : Node number) (this : Parser number).
Implicit Types (element : option (Node number)).

(** The call made on an element of an array literal, and the loop's list of
    elements with their calls. *)
#[local] Abbreviation elementScan :=
  (scanElement (λ node : Node number, scanNode node false)).
#[local] Abbreviation elementScans :=
  (map (λ element : option (Node number), (element, elementScan element))).

Lemma rootPush_false completion this : rootPush false completion this = this.
Proof. by destruct completion as [[?|]| |]. Qed.

Lemma globals_rootPush isForRoot completion this :
  globals (rootPush isForRoot completion this) = globals this.
Proof. by destruct completion as [[?|]| |], isForRoot. Qed.

Lemma nodesRoot_rootPush isForRoot completion this :
  nodesRoot this `prefix_of` nodesRoot (rootPush isForRoot completion this).
Proof.
  destruct completion as [[?|]| |], isForRoot; cbn; try done.
  by apply prefix_app_r.
Qed.

(** The value of [isForRoot] bears on the push after the [switch] and on
    nothing else. *)
Lemma scanNode_for_root node isForRoot this :
  scanNode node isForRoot this
  = (let '(node', this1, completion) := scanNode node false this in
     (node', rootPush isForRoot completion this1, completion)).
Proof.
  destruct node; cbn [scanNode];
    repeat match goal with
           | |- context [match ?x with (_, _) => _ end] =>
               destruct x as [[? ?] [[?|]| |]]; cbn
           end;
    try reflexivity.
Qed.

(** *** Every scan completes, and a scan not for the root keeps the parser *)

Lemma runEach_completes (l : list (option (Node number))) this :
  Forall (λ element, ∀ node, element = Some node → completes_in_place node) l →
  ∃ elements' completion,
    runEach (elementScans l) this = (elements', this, completion) ∧ completion ≠ Stuck.
Proof.
  induction 1 as [|element l Helement _ (elements' & completion & IH & Hc)].
  - by eexists _, _.
  - cbn [map runEach]. destruct element as [node|]; cbn [scanElement].
    + destruct (Helement node eq_refl this) as (node' & c & -> & Hnode).
      destruct c as [svNode| |]; [|by eexists _, _|done].
      rewrite IH. eexists _, _. split; [reflexivity|]. by destruct completion.
    + by eexists _, _.
Qed.

Lemma scanDeclarations_completes kind
    (declarations : list (VariableDeclarator (Node number))) this :
  Forall (λ declarator, ∀ init, decl_init declarator = Some init → completes_in_place init)
    declarations →
  ∃ declarations' completion,
    scanDeclarations (λ init, scanNode init false) kind declarations this
    = (declarations', this, completion) ∧ completion ≠ Stuck.
Proof.
  induction 1 as [|[pattern init] rest Hinit _ (rest' & completion & IH & Hc)].
  - by eexists _, _.
  - cbn [scanDeclarations decl_id decl_init].
    destruct pattern; try (rewrite IH; by eexists _, _).
    destruct init as [init|].
    + destruct (Hinit init eq_refl this) as (init' & c & -> & Hinit').
      destruct c as [value| |]; [|by eexists _, _|done].
      rewrite IH. eexists _, _. split; [reflexivity|]. by destruct completion.
    + rewrite IH. eexists _, _. split; [reflexivity|]. by destruct completion.
Qed.

Lemma scanNode_completes node : completes_in_place node.
Proof.
  induction node as
    [ value | value | value | l r operator IHl IHr | l r operator IHl IHr
    | argument operator IHa | elements IHe | expression IHx | name
    | kind declarations IHd | type children ] using Node_scan_ind;
    intros this; cbn [scanNode].
  - by eexists _, _.
  - by eexists _, _.
  - by eexists _, _.
  - destruct (IHl this) as (l' & cl & -> & Hl).
    destruct cl as [left'| |]; [|by eexists _, _|done].
    destruct (IHr this) as (r' & cr & -> & Hr).
    destruct cr as [right'| |]; [|by eexists _, _|done]. by eexists _, _.
  - destruct (IHl this) as (l' & cl & -> & Hl).
    destruct cl as [left'| |]; [|by eexists _, _|done].
    destruct (IHr this) as (r' & cr & -> & Hr).
    destruct cr as [right'| |]; [|by eexists _, _|done]. by eexists _, _.
  - destruct (IHa this) as (a' & ca & -> & Ha).
    destruct ca as [arg| |]; [|by eexists _, _|done]. by eexists _, _.
  - rewrite <- map_rev.
    destruct (runEach_completes (rev elements) this) as (es' & c & -> & Hc);
      [by apply Forall_rev|].
    destruct c as [nodeElements| |]; [|by eexists _, _|done]. by eexists _, _.
  - destruct (IHx this) as (x' & cx & -> & Hx).
    destruct cx as [svNode| |]; [|by eexists _, _|done]. by eexists _, _.
  - by eexists _, _.
  - destruct (scanDeclarations_completes kind declarations this IHd)
      as (ds' & c & -> & Hc).
    destruct c as [variables| |]; [|by eexists _, _|done]. by eexists _, _.
  - by eexists _, _.
Qed.

(** A scan that is not for the root leaves the parser as it was, however it
    completes. *)
Lemma scanNode_keeps_parser node this :
  ∃ node' completion, scanNode node false this = (node', this, completion).
Proof. destruct (scanNode_completes node this) as (node' & c & H & _). by eexists _, _. Qed.

Lemma elementScan_keeps_parser element this :
  ∃ element' completion,
    elementScan element this = (element', this, completion) ∧ completion ≠ Stuck.
Proof.
  destruct element as [node|]; cbn [scanElement]; [|by eexists _, _].
  destruct (scanNode_completes node this) as (node' & c & -> & Hc). by eexists _, _.
Qed.

End PassLemmas.

Section PassLoops.

Context {number : Type}.
Implicit Types (node : Node number) (this : Parser number).
Implicit Types (element : option (Node number)).

#[local] Abbreviation elementScan :=
  (scanElement (λ node : Node number, scanNode node false)).
#[local] Abbreviation elementScans :=
  (map (λ element : option (Node number), (element, elementScan element))).

Lemma elementScan_inv element this element' this' completion :
  elementScan element this = (element', this', completion) →
  (element = None ∧ element' = None ∧ this' = this ∧ completion = Throw nullNodeError)
  ∨ ∃ node node', element = Some node ∧ element' = Some node'
                  ∧ scanNode node false this = (node', this', completion).
Proof.
  destruct element as [node|]; cbn [scanElement].
  - destruct (scanNode node false this) as [[node' this1] c] eqn:Hscan.
    intros [= <- <- <-]. right. by eexists _, _.
  - intros [= <- <- <-]. by left.
Qed.

Lemma elementScan_Some node this node' completion :
  scanNode node false this = (node', this, completion) →
  elementScan (Some node) this = (Some node', this, completion).
Proof. intros H. cbn [scanElement]. by rewrite H. Qed.

Lemma elementScans_fst (l : list (option (Node number))) : map fst (elementScans l) = l.
Proof. induction l; cbn; f_equal; auto. Qed.

(** The loop over the elements of an array literal: the parser is kept;
    each element is left as the call on it leaves it, up to and including
    the first call that throws, and the elements behind that one are not
    touched; the loop returns exactly when every call returns, and then it
    returns what the calls returned, in order. *)
Lemma runEach_spec (l : list (option (Node number))) this :
  ∃ elements' completion,
    runEach (elementScans l) this = (elements', this, completion)
    ∧ completion ≠ Stuck
    ∧ Forall2 (λ element element',
                 element' = element
                 ∨ ∃ c, elementScan element this = (element', this, c)) l elements'
    ∧ ((∃ nodeElements, completion = Ok nodeElements)
       ↔ Forall (λ element, ∃ element' svNode,
                   elementScan element this = (element', this, Ok svNode)) l)
    ∧ ∀ nodeElements, completion = Ok nodeElements →
        Forall2 (λ element element',
                   ∃ svNode, elementScan element this = (element', this, Ok svNode))
          l elements'
        ∧ Forall2 (λ element svNode,
                     ∃ element', elementScan element this = (element', this, Ok svNode))
            l nodeElements.
Proof.
  induction l as [|element l (elements' & completion & Hrun & Hc & Hleft & Hiff & Hok)].
  - eexists [], (Ok []). split; [reflexivity|]. split; [done|]. split; [constructor|].
    split; [split; [constructor | by eexists]|]. intros ? [= <-]. split; constructor.
  - destruct (elementScan_keeps_parser element this) as (element' & ce & He & Hce).
    cbn [map runEach]. rewrite He.
    destruct ce as [svNode| |]; [| |done].
    + rewrite Hrun. eexists _, _. split; [reflexivity|]. split; [by destruct completion|].
      split; [|split].
      * constructor; [|exact Hleft]. right. by eexists.
      * split.
        -- intros [nodeElements Hall]. destruct completion as [rest| |]; try done.
           constructor; [by eexists _, _|]. apply Hiff. by eexists.
        -- intros Hall. apply Forall_cons in Hall as [_ Hall].
           apply Hiff in Hall as [rest ->]. by eexists.
      * intros nodeElements Hall. destruct completion as [rest| |]; try done.
        injection Hall as <-. destruct (Hok rest eq_refl) as [Htree Hsv].
        split; constructor; try done; by eexists.
    + rewrite elementScans_fst. eexists _, _. split; [reflexivity|]. split; [done|].
      split; [|split].
      * constructor; [right; by eexists|].
        clear. induction l; constructor; auto.
      * split; [by intros [? ?]|]. intros Hall.
        apply Forall_cons in Hall as [(e'' & sv & Hsv) _]. congruence.
      * by intros ? ?.
Qed.

(** The [ArrayExpression] case as the source has it: the loop runs over the
    reversed array. *)
Lemma scanNode_array_loop (elements : list (option (Node number))) isForRoot this :
  scanNode (ArrayExpression elements) isForRoot this
  = (let '(elements', this1, completion) :=
       runEach (elementScans (rev elements)) this in
     let returned :=
       nodeElements ← completion; Ok (Some (SVArrayExpression nodeElements)) in
     (ArrayExpression elements', rootPush isForRoot returned this1, returned)).
Proof.
  cbn [scanNode]. rewrite map_rev.
  by destruct (runEach _ this) as [[elements' this1] [nodeElements| |]].
Qed.

(** The loop over the declarators: the parser is kept; each declarator
    keeps its pattern, is left untouched when the pattern is not an
    identifier, and otherwise has its initializer untouched or as the call on
    it leaves it; when the loop returns, every initializer of a declarator
    with an identifier pattern was scanned and the entries are, in order,
    those of these declarators. *)
Lemma scanDeclarations_spec kind (declarations : list (VariableDeclarator (Node number)))
    this :
  ∃ declarations' completion,
    scanDeclarations (λ init, scanNode init false) kind declarations this
    = (declarations', this, completion)
    ∧ completion ≠ Stuck
    ∧ Forall2
        (λ declarator declarator',
           decl_id declarator' = decl_id declarator
           ∧ (isIdentifier (decl_id declarator) = false → declarator' = declarator)
           ∧ (declarator' = declarator
              ∨ ∃ init init' c,
                  decl_init declarator = Some init ∧ decl_init declarator' = Some init'
                  ∧ scanNode init false this = (init', this, c)))
        declarations declarations'
    ∧ ((∃ variables, completion = Ok variables)
       ↔ Forall (λ declarator,
                   isIdentifier (decl_id declarator) = true →
                   ∀ init, decl_init declarator = Some init →
                     ∃ init' value, scanNode init false this = (init', this, Ok value))
           declarations)
    ∧ ∀ variables, completion = Ok variables →
        Forall2
          (λ declarator entry,
             decl_id declarator = Identifier (var_name entry)
             ∧ (var_constant entry = true ↔ kind = "const")
             ∧ match decl_init declarator with
               | Some init =>
                   ∃ init', scanNode init false this = (init', this, Ok (var_value entry))
               | None => var_value entry = None
               end)
          (List.filter (λ declarator, isIdentifier (decl_id declarator)) declarations)
          variables.
Proof.
  induction declarations
    as [|[pattern init] rest (rest' & completion & Hrun & Hc & Htree & Hiff & Hok)].
  - eexists [], (Ok []). split; [reflexivity|]. split; [done|]. split; [constructor|].
    split; [split; [constructor | by eexists]|]. intros ? [= <-]. constructor.
  - cbn [scanDeclarations decl_id decl_init List.filter].
    destruct pattern;
      try (rewrite Hrun; eexists _, _; split; [reflexivity|]; split; [done|];
           cbn [isIdentifier]; split; [|split];
           [ constructor; [by repeat split; try left | exact Htree]
           | rewrite Hiff; split;
             [ intros Hall; by constructor
             | by intros [_ Hall]%Forall_cons ]
           | exact Hok ]).
    cbn [isIdentifier]. destruct init as [init|].
    + destruct (scanNode_completes init this) as (init' & ci & Hinit & Hci).
      rewrite Hinit. destruct ci as [value| |]; [| |done].
      * rewrite Hrun. eexists _, _. split; [reflexivity|].
        split; [by destruct completion|]. split; [|split].
        -- constructor; [|exact Htree]. cbn [decl_id decl_init].
           split; [done|]. split; [done|]. right. by eexists _, _, _.
        -- split.
           ++ intros [variables Hall]. destruct completion as [vars| |]; try done.
              constructor; [|apply Hiff; by eexists].
              cbn [decl_id decl_init]. intros _ ? [= <-]. by eexists _, _.
           ++ intros [_ Hall]%Forall_cons. apply Hiff in Hall as [vars ->]. by eexists.
        -- intros variables Hall. destruct completion as [vars| |]; try done.
           injection Hall as <-. constructor; [|by apply Hok].
           cbn [decl_id decl_init var_name var_constant var_value].
           split; [done|]. split; [apply String.eqb_eq|]. by eexists.
      * eexists _, _. split; [reflexivity|]. split; [done|]. split; [|split].
        -- constructor.
           ++ cbn [decl_id decl_init]. split; [done|]. split; [done|].
              right. by eexists _, _, _.
           ++ clear. induction rest; constructor; auto; by repeat split; try left.
        -- split; [by intros [? ?]|]. intros [Hhead _]%Forall_cons.
           destruct (Hhead eq_refl init eq_refl) as (? & ? & Heq). congruence.
        -- by intros ? ?.
    + rewrite Hrun. eexists _, _. split; [reflexivity|].
      split; [by destruct completion|]. split; [|split].
      * constructor; [|exact Htree]. by repeat split; try left.
      * split.
        -- intros [variables Hall]. destruct completion as [vars| |]; try done.
           constructor; [|apply Hiff; by eexists]. by intros _ ? ?.
        -- intros [_ Hall]%Forall_cons. apply Hiff in Hall as [vars ->]. by eexists.
      * intros variables Hall. destruct completion as [vars| |]; try done.
        injection Hall as <-. constructor; [|by apply Hok].
        cbn [decl_id decl_init var_name var_constant var_value].
        split; [done|]. split; [apply String.eqb_eq|done].
Qed.

(** The [VariableDeclaration] case in terms of its loop. *)
Lemma scanNode_declaration_loop kind
    (declarations : list (VariableDeclarator (Node number))) isForRoot this :
  scanNode (VariableDeclaration kind declarations) isForRoot this
  = (let '(declarations', this1, completion) :=
       scanDeclarations (λ init, scanNode init false) kind declarations this in
     let returned :=
       variables ← completion; svNode ← newSVDefinition variables; Ok (Some svNode) in
     (VariableDeclaration kind declarations', this1, returned)).
Proof.
  cbn [scanNode].
  by destruct (scanDeclarations _ kind declarations this)
    as [[declarations' this1] [variables| |]].
Qed.

(** *** The loop over the program body *)

Lemma scanBody_cons node (rest : list (Node number)) this :
  scanBody (node :: rest) this
  = (let '(node', completion) :=
       (let '(node', _, completion) := scanNode node false this in (node', completion)) in
     match completion with
     | Ok _ =>
         let '(rest', this2, completion2) :=
           scanBody rest (rootPush true completion this) in
         (node' :: rest', this2, completion2)
     | _ => (node' :: rest, this, abrupt completion)
     end).
Proof.
  cbn [scanBody]. rewrite scanNode_for_root.
  destruct (scanNode_keeps_parser node this) as (node' & c & ->).
  by destruct c as [[?|]| |].
Qed.

Lemma scanBody_app (before after : list (Node number)) this :
  scanBody (before ++ after) this
  = (let '(before', this1, completion) := scanBody before this in
     match completion with
     | Ok _ =>
         let '(after', this2, completion2) := scanBody after this1 in
         (before' ++ after', this2, completion2)
     | _ => (before' ++ after, this1, completion)
     end).
Proof.
  revert this. induction before as [|node before IH]; intros this.
  - cbn [app scanBody]. by destruct (scanBody after this) as [[? ?] ?].
  - cbn [app scanBody]. destruct (scanNode node true this) as [[node' this1] c].
    destruct c as [svNode| |]; [|reflexivity..].
    rewrite IH. destruct (scanBody before this1) as [[before' this2] [[]| |]];
      [|reflexivity..].
    by destruct (scanBody after this2) as [[? ?] ?].
Qed.

(** The loop never takes a node back: it keeps the global names, and what
    [nodesRoot] held stays at its front. *)
Lemma scanBody_spec (body : list (Node number)) this :
  ∃ body' this' completion,
    scanBody body this = (body', this', completion)
    ∧ completion ≠ Stuck
    ∧ globals this' = globals this
    ∧ nodesRoot this `prefix_of` nodesRoot this'
    ∧ length body' = length body.
Proof.
  revert this. induction body as [|node body IH]; intros this.
  - by eexists _, _, _.
  - rewrite scanBody_cons.
    destruct (scanNode_completes node this) as (node' & c & -> & Hc).
    destruct c as [svNode| |]; [| |done].
    + destruct (IH (rootPush true (Ok svNode) this))
        as (body' & this' & c & -> & Hc' & Hg & Hn & Hl).
      eexists _, _, _. split; [reflexivity|]. split; [done|].
      split; [by rewrite Hg, globals_rootPush|].
      split; [|cbn; by rewrite Hl].
      etrans; [apply (nodesRoot_rootPush true (Ok svNode))|exact Hn].
    + by eexists _, _, _.
Qed.

End PassLoops.

(** *** Claims about the node model and the pass *)

Section PassClaims.

Context {number : Type}.
Implicit Types (node : Node number) (this : Parser number).
Implicit Types (body : list (Node number)).

#[local] Abbreviation elementScan :=
  (scanElement (λ node : Node number, scanNode node false)).

Lemma nodesRoot_visitIdentifier this visit :
  nodesRoot (visitIdentifier this visit) = nodesRoot this.
Proof.
  destruct visit as [name isGlobal]. unfold visitIdentifier.
  by destruct (negb isGlobal || bool_decide (name ∈ globals this)).
Qed.

Lemma nodesRoot_prepass this (visits : list (string * bool)) :
  nodesRoot (foldl visitIdentifier this visits) = nodesRoot this.
Proof.
  revert this. induction visits as [|visit visits IH]; intros this; [done|].
  cbn [foldl]. by rewrite IH, nodesRoot_visitIdentifier.
Qed.

Lemma Forall2_unchanged {A : Type} (R : A → A → Prop) (l l' : list A) :
  Forall2 R l l' → (∀ x y, x ∈ l → R x y → y = x) → l' = l.
Proof.
  induction 1 as [|x y l l' Hxy _ IH]; intros Hsame; [done|].
  f_equal; [apply Hsame; [left|done]|].
  apply IH. intros x' y' Hin. apply Hsame. by right.
Qed.

Lemma elem_of_rev {A : Type} (x : A) (l : list A) : x ∈ rev l → x ∈ l.
Proof. rewrite !list_elem_of_In. apply in_rev. Qed.


(** C7: [new SVLiteral(valueType, value)] returns a [Literal] node holding
    [value] itself exactly when [typeof value] is the declared kind, and
    throws (no node is made) exactly when it is not. *)
Theorem SVLiteral_checks_value_type (valueType : LiteralValueType) (value : JSValue number) :
  (typeof value = valueTypeName valueType ↔
     newSVLiteral valueType value = Ok (SVLiteral value)
     ∧ nodeType (SVLiteral value) = TLiteral)
  ∧ (typeof value ≠ valueTypeName valueType ↔
       ∃ message, newSVLiteral valueType value = Throw message).
Proof.
  destruct valueType, value; cbn; (split; split);
    first [ done | by intros [? ?] | by intros [? ?]; discriminate
          | by intros _; eexists | by intros ? | idtac ].
Qed.


(** C5: the scan of an expression statement for the root scans the
    expression as a child, returns no node and leaves the parser,
    [nodesRoot] included, exactly as it was, also when the scan of the
    expression throws; a program body never has more in its output with the
    statement than without it, and ends in the same parser when it is
    scanned to the end; and a program that is one expression statement
    leaves [nodesRoot] empty. *)
Theorem scanNode_expression_statement (expression : Node number) this :
  (∃ expression' completion,
     scanNode expression false this = (expression', this, completion)
     ∧ scanNode (ExpressionStatement expression) true this
       = (ExpressionStatement expression', this, _ ← completion; Ok None))
  ∧ (∀ before after, ∃ body1 this1 completion1 body2 this2 completion2,
       scanBody (before ++ ExpressionStatement expression :: after) this
       = (body1, this1, completion1)
       ∧ scanBody (before ++ after) this = (body2, this2, completion2)
       ∧ nodesRoot this1 `prefix_of` nodesRoot this2
       ∧ (completion1 = Ok tt → this1 = this2 ∧ completion2 = Ok tt))
  ∧ ∀ identifierPaths, ∃ body' this' completion,
      parse identifierPaths [ExpressionStatement expression] newParser
      = (body', this', completion)
      ∧ nodesRoot this' = []
      ∧ (completion = Ok [] ∨ ∃ message, completion = Throw message).
Proof.
  assert (∀ that, ∃ expression' completion,
            scanNode expression false that = (expression', that, completion)
            ∧ completion ≠ Stuck
            ∧ ∀ isForRoot,
                scanNode (ExpressionStatement expression) isForRoot that
                = (ExpressionStatement expression', that, _ ← completion; Ok None))
    as Hstatement.
  { intros that.
    destruct (scanNode_completes expression that) as (expression' & c & Hscan & Hc).
    exists expression', c. split; [done|]. split; [done|]. intros isForRoot.
    cbn [scanNode]. rewrite Hscan. by destruct c. }
  split; [|split].
  - destruct (Hstatement this) as (expression' & c & Hscan & _ & Hroot). by eexists _, _.
  - intros before after. rewrite !scanBody_app.
    destruct (scanBody before this) as [[before' this1] c1].
    destruct c1 as [[]| |]; [|by eexists _, _, _, _, _, _..].
    destruct (Hstatement this1) as (expression' & c & Hscan & Hc & Hroot).
    rewrite scanBody_cons, (Hroot false).
    destruct (scanBody_spec after this1) as (after' & this2 & c2 & Hafter & _ & _ & Hpre & _).
    destruct c as [svNode| |]; [| |done]; cbn.
    + rewrite Hafter. by eexists _, _, _, _, _, _.
    + rewrite Hafter. eexists _, _, _, _, _, _. by repeat split.
  - intros identifierPaths. unfold parse.
    set (this1 := foldl visitIdentifier newParser _).
    assert (nodesRoot this1 = []) as Hempty by apply nodesRoot_prepass.
    destruct (Hstatement this1) as (expression' & c & Hscan & Hc & Hroot).
    rewrite scanBody_cons, (Hroot false).
    destruct c as [svNode| |]; [| |done]; cbn.
    + eexists _, _, _. split; [reflexivity|]. split; [done|]. left. by rewrite Hempty.
    + eexists _, _, _. split; [reflexivity|]. split; [done|]. right. by eexists.
Qed.

(** C8: the [VariableDeclaration] case never gives a node.  Its loop builds
    the entries the claim describes, one for each declarator with an
    identifier pattern, and then [new SVDefinition] throws, because
    [nodes.ts] has no class of that name; so the scan of every declaration
    statement throws and [nodesRoot] is left as it was.  For [let a = 1, b;]
    the error is the one of [new SVDefinition]. *)
Theorem scanNode_variable_declaration_throws kind
    (declarations : list (VariableDeclarator (Node number))) isForRoot this :
  (∃ declarations' message,
     scanNode (VariableDeclaration kind declarations) isForRoot this
     = (VariableDeclaration kind declarations', this, Throw message))
  ∧ (∀ declarations' variables,
       scanDeclarations (λ init, scanNode init false) kind declarations this
       = (declarations', this, Ok variables) →
       scanNode (VariableDeclaration kind declarations) isForRoot this
       = (VariableDeclaration kind declarations', this,
          Throw "SVDefinition is not a constructor")
       ∧ Forall2
           (λ declarator entry,
              decl_id declarator = Identifier (var_name entry)
              ∧ (var_constant entry = true ↔ kind = "const")
              ∧ match decl_init declarator with
                | Some init =>
                    ∃ init', scanNode init false this = (init', this, Ok (var_value entry))
                | None => var_value entry = None
                end)
           (List.filter (λ declarator, isIdentifier (decl_id declarator)) declarations)
           variables)
  ∧ ∀ one : number,
      scanDeclarations (λ init, scanNode init false) "let"
        [mkDeclarator (Identifier "a") (Some (NumericLiteral one));
         mkDeclarator (Identifier "b") None] this
      = ([mkDeclarator (Identifier "a") (Some (NumericLiteral one));
          mkDeclarator (Identifier "b") None], this,
         Ok [mkVariable "a" None false (Some (SVLiteral (JSNumber one)));
             mkVariable "b" None false None])
      ∧ scanNode (VariableDeclaration "let"
                    [mkDeclarator (Identifier "a") (Some (NumericLiteral one));
                     mkDeclarator (Identifier "b") None]) isForRoot this
        = (VariableDeclaration "let"
             [mkDeclarator (Identifier "a") (Some (NumericLiteral one));
              mkDeclarator (Identifier "b") None], this,
           Throw "SVDefinition is not a constructor").
Proof.
  split; [|split].
  - rewrite scanNode_declaration_loop.
    destruct (scanDeclarations_spec kind declarations this)
      as (declarations' & c & -> & Hc & _).
    destruct c as [variables| |]; [| |done]; by eexists _, _.
  - intros declarations' variables Hloop.
    rewrite scanNode_declaration_loop, Hloop. split; [reflexivity|].
    destruct (scanDeclarations_spec kind declarations this)
      as (declarations'' & c & Hrun & _ & _ & _ & Hok).
    rewrite Hloop in Hrun. injection Hrun as <- <-. by apply Hok.
  - intros one. split; [reflexivity|]. by rewrite scanNode_declaration_loop.
Qed.

(** C9: the scan of a node of a kind the pass does not dispatch on returns
    no node, throws nothing and changes neither the node nor the parser.
    In a program body the statements around it are scanned as if it were
    not there: the body with the statement ends in the same parser and the
    same way as the body without it, and the statement behind it is scanned
    by [scanNode], for the root, on the parser as it was before; in
    [debugger; [1, 2];] the array literal is still reversed. *)
Theorem scanNode_unsupported_kind type (children : list (Node number)) isForRoot this :
  scanNode (OtherNode type children) isForRoot this
  = (OtherNode type children, this, Ok None)
  ∧ (∀ before after, ∃ before' after' this' completion,
       scanBody (before ++ after) this = (before' ++ after', this', completion)
       ∧ scanBody (before ++ OtherNode type children :: after) this
         = (before' ++ OtherNode type children :: after', this', completion)
       ∧ length before' = length before)
  ∧ (∀ node after,
      scanBody (OtherNode type children :: node :: after) this
      = (let '(node', this1, completion) := scanNode node true this in
         match completion with
         | Ok _ =>
             let '(after', this2, completion2) := scanBody after this1 in
             (OtherNode type children :: node' :: after', this2, completion2)
         | _ => (OtherNode type children :: node' :: after, this1, abrupt completion)
         end))
  ∧ ∀ one two : number,
      scanBody
        [OtherNode type children;
         ExpressionStatement
           (ArrayExpression [Some (NumericLiteral one); Some (NumericLiteral two)])]
        this
      = ([OtherNode type children;
          ExpressionStatement
            (ArrayExpression [Some (NumericLiteral two); Some (NumericLiteral one)])],
         this, Ok tt).
Proof.
  split; [reflexivity|]. split; [|split; [|reflexivity]].
  - intros before after. rewrite !scanBody_app.
    destruct (scanBody_spec before this)
      as (before' & this1 & c1 & -> & _ & _ & _ & Hlen).
    destruct c1 as [[]| |]; [|by eexists _, _, _, _..].
    cbn [scanBody scanNode].
    destruct (scanBody after this1) as [[after' this2] c2]. by eexists _, _, _, _.
  - intros node after. cbn [scanBody scanNode].
    destruct (scanNode node true this) as [[node' this1] c].
    destruct c as [svNode| |]; [|reflexivity..].
    by destruct (scanBody after this1) as [[after' this2] c2].
Qed.

(** C10, as amended: the scan of an array literal leaves the source node
    with its elements in the reverse of their order, also when the scan
    throws: each element is then untouched or as its own scan leaves it, and
    as its own scan leaves it when the scan of the literal returns.  When the
    scans of the elements change nothing in them (as for literals and
    identifiers), the node afterwards holds exactly the reversed sequence,
    and differs from the node before exactly when the element sequence is not
    its own reverse. *)
Theorem scanNode_array_reversed_in_place (elements : list (option (Node number)))
    isForRoot this :
  ∃ elements' this' completion,
    scanNode (ArrayExpression elements) isForRoot this
    = (ArrayExpression elements', this', completion)
    ∧ Forall2 (λ element element',
                 element' = element
                 ∨ ∃ node node' c,
                     element = Some node ∧ element' = Some node'
                     ∧ scanNode node false this = (node', this, c))
        (rev elements) elements'
    ∧ ((∃ svNode, completion = Ok svNode) →
       Forall2 (λ element element',
                  ∃ node node' sv,
                    element = Some node ∧ element' = Some node'
                    ∧ scanNode node false this = (node', this, Ok sv))
         (rev elements) elements')
    ∧ ((∀ node, Some node ∈ elements →
          ∃ c, scanNode node false this = (node, this, c)) →
       elements' = rev elements
       ∧ (ArrayExpression elements' ≠ ArrayExpression elements
          ↔ rev elements ≠ elements)).
Proof.
  rewrite scanNode_array_loop.
  destruct (runEach_spec (rev elements) this)
    as (elements' & c & -> & Hc & Hleft & _ & Hok).
  assert (Forall2 (λ element element',
                     element' = element
                     ∨ ∃ node node' c,
                         element = Some node ∧ element' = Some node'
                         ∧ scanNode node false this = (node', this, c))
            (rev elements) elements') as Hleft'.
  { eapply Forall2_impl; [exact Hleft|].
    intros element element' [-> | [c' Hscan]]; [by left|].
    destruct (elementScan_inv _ _ _ _ _ Hscan)
      as [(-> & -> & _) | (node & node' & -> & -> & Hnode)]; [by left|].
    right. by eexists _, _, _. }
  eexists _, _, _. split; [reflexivity|]. split; [exact Hleft'|]. split.
  - cbn zeta. intros [svNode Hsv]. destruct c as [nodeElements| |]; try done.
    destruct (Hok nodeElements eq_refl) as [Htree _].
    eapply Forall2_impl; [exact Htree|].
    intros element element' (sv & Hscan).
    destruct (elementScan_inv _ _ _ _ _ Hscan)
      as [(_ & _ & _ & ?) | (node & node' & -> & -> & Hnode)]; [done|].
    by eexists _, _, _.
  - intros Hsame.
    assert (elements' = rev elements) as ->.
    { eapply Forall2_unchanged; [exact Hleft'|].
      intros element element' Hin [-> | (node & node' & c' & -> & -> & Hnode)];
        [done|].
      apply elem_of_rev in Hin. destruct (Hsame node Hin) as [c'' Hnode'].
      rewrite Hnode in Hnode'. by injection Hnode' as ->. }
    split; [done|]. split.
    + intros Hne Heq. apply Hne. by rewrite Heq.
    + intros Hne [= Heq]. done.
Qed.

End PassClaims.


(** C10, the claim as stated fails: the program [[1];] holds an array
    literal, and its tree after the scan is the tree before it. *)
Lemma scanNode_one_element_array_unchanged :
  scanNode (ExpressionStatement (ArrayExpression [Some (NumericLiteral 1%Z)])) true
    newParser
  = (ExpressionStatement (ArrayExpression [Some (NumericLiteral 1%Z)]), newParser,
     Ok None).
Proof. reflexivity. Qed.

(** *** The pass on small programs *)

(** [[1, 2, 3]] scanned as an expression of its own: the returned elements and
    the array left in the tree are both in reversed order. *)
Example scan_array_1_2_3 :
  scanNode (ArrayExpression
              [Some (NumericLiteral 1%Z); Some (NumericLiteral 2%Z);
               Some (NumericLiteral 3%Z)])
    false newParser
  = (ArrayExpression
       [Some (NumericLiteral 3%Z); Some (NumericLiteral 2%Z); Some (NumericLiteral 1%Z)],
     newParser,
     Ok (Some (SVArrayExpression
                 [Some (SVLiteral (JSNumber 3%Z));
                  Some (SVLiteral (JSNumber 2%Z));
                  Some (SVLiteral (JSNumber 1%Z))]))).
Proof. reflexivity. Qed.

(** [[1, , [2, 3]]]: the scan reverses the outer array, scans and reverses
    the inner one, and throws at the elided element; the element [1] behind
    it is not reached.  A second scan of the tree as it then is reverses the
    outer array again and throws at once after [1]: the inner array stays
    reversed. *)
Example scan_array_with_elided_element_twice :
  let inner := ArrayExpression [Some (NumericLiteral 2%Z); Some (NumericLiteral 3%Z)] in
  let inner' := ArrayExpression [Some (NumericLiteral 3%Z); Some (NumericLiteral 2%Z)] in
  scanNode (ArrayExpression [Some (NumericLiteral 1%Z); None; Some inner]) false newParser
  = (ArrayExpression [Some inner'; None; Some (NumericLiteral 1%Z)], newParser,
     Throw nullNodeError)
  ∧ scanNode (ArrayExpression [Some inner'; None; Some (NumericLiteral 1%Z)]) false
      newParser
    = (ArrayExpression [Some (NumericLiteral 1%Z); None; Some inner'], newParser,
       Throw nullNodeError).
Proof. split; reflexivity. Qed.

(** [let a = [1, 2], {c} = o, b;]: the initializer of [a] is scanned, and
    its array reversed, before [new SVDefinition] throws; nothing reaches the
    output. *)
Example scan_let_with_pattern :
  scanBody
    [VariableDeclaration "let"
       [mkDeclarator (Identifier "a")
          (Some (ArrayExpression [Some (NumericLiteral 1%Z); Some (NumericLiteral 2%Z)]));
        mkDeclarator (OtherNode "ObjectPattern" []) (Some (Identifier "o"));
        mkDeclarator (Identifier "b") None]]
    newParser
  = ([VariableDeclaration "let"
        [mkDeclarator (Identifier "a")
           (Some (ArrayExpression [Some (NumericLiteral 2%Z); Some (NumericLiteral 1%Z)]));
         mkDeclarator (OtherNode "ObjectPattern" []) (Some (Identifier "o"));
         mkDeclarator (Identifier "b") None]],
     newParser,
     Throw "SVDefinition is not a constructor").
Proof. reflexivity. Qed.

(** [[1, 2]; const c = 2; [3, 4];] with [doSomething] found global by the
    pre-pass: the first statement is scanned, the declaration throws, and
    the statement behind it is not reached. *)
Example parse_statements_and_declaration :
  parse (λ _, [("c", false); ("doSomething", true)])
    [ExpressionStatement
       (ArrayExpression [Some (NumericLiteral 1%Z); Some (NumericLiteral 2%Z)]);
     VariableDeclaration "const" [mkDeclarator (Identifier "c") (Some (NumericLiteral 2%Z))];
     ExpressionStatement
       (ArrayExpression [Some (NumericLiteral 3%Z); Some (NumericLiteral 4%Z)])]
    newParser
  = ([ExpressionStatement
        (ArrayExpression [Some (NumericLiteral 2%Z); Some (NumericLiteral 1%Z)]);
      VariableDeclaration "const"
        [mkDeclarator (Identifier "c") (Some (NumericLiteral 2%Z))];
      ExpressionStatement
        (ArrayExpression [Some (NumericLiteral 3%Z); Some (NumericLiteral 4%Z)])],
     mkParser {["doSomething"]} [],
     Throw "SVDefinition is not a constructor").
Proof. reflexivity. Qed.

(** [[[1, 2], [2, 1]]]: the outer array is not its own reverse, yet the tree
    is the same after the scan, because the scans of the inner arrays reverse
    them too. *)
Example scan_nested_arrays_unchanged :
  let tree :=
    ArrayExpression
      [Some (ArrayExpression [Some (NumericLiteral 1%Z); Some (NumericLiteral 2%Z)]);
       Some (ArrayExpression [Some (NumericLiteral 2%Z); Some (NumericLiteral 1%Z)])] in
  ∃ svNode, scanNode tree false newParser = (tree, newParser, Ok svNode).
Proof. eexists. reflexivity. Qed.

(** [[1, 2]]: the tree after the scan differs from the tree before. *)
Example scan_array_1_2_changed :
  ∃ tree' svNode,
    scanNode (ArrayExpression [Some (NumericLiteral 1%Z); Some (NumericLiteral 2%Z)])
      false newParser
    = (tree', newParser, Ok svNode)
    ∧ tree' ≠ ArrayExpression [Some (NumericLiteral 1%Z); Some (NumericLiteral 2%Z)].
Proof. eexists _, _. split; [reflexivity|]. discriminate. Qed.
(** * Further properties of the scope model *)

Section ScopeFurther.

Context {number : Type}.
Implicit Types (h : list (SVScope number)) (s : SVScope number).
Implicit Types (a b p : addr) (name : string) (d : SVScopeDefinition).
Implicit Types (calls : list (string * SVScopeDefinitionKindType * bool)).

Lemma hasVariable_bound h a s name :
  h !! a = Some s → is_Some (variables s !! name) → hasVariable h a name = Ok true.
Proof.
  intros Ha Hb. rewrite (hasVariable_at _ _ _ _ Ha). f_equal. by apply has_true.
Qed.

Lemma getVariableInParentRoot_here h a s name d fuel :
  h !! a = Some s → variables s !! name = Some d →
  getVariableInParentRoot (S fuel) h a name = Ok d.
Proof.
  intros Ha Hd. cbn [getVariableInParentRoot].
  rewrite Ha, (hasVariable_bound _ _ _ _ Ha) by (by eexists).
  cbn [mbind result_bind]. by eapply getVariable_bound.
Qed.

Lemma getVariableInParentRoot_up h a s p name fuel :
  h !! a = Some s → variables s !! name = None → parent s = Some p →
  getVariableInParentRoot (S fuel) h a name = getVariableInParentRoot fuel h p name.
Proof.
  intros Ha Hn Hp. cbn [getVariableInParentRoot].
  rewrite Ha, (hasVariable_at _ _ _ _ Ha). apply has_false in Hn. rewrite Hn.
  cbn [mbind result_bind]. by rewrite Hp.
Qed.

Lemma getVariableInParentRoot_root h a s name fuel :
  h !! a = Some s → variables s !! name = None → parent s = None →
  getVariableInParentRoot (S fuel) h a name = Throw (name +:+ " is not defined.").
Proof.
  intros Ha Hn Hp. cbn [getVariableInParentRoot].
  rewrite Ha, (hasVariable_at _ _ _ _ Ha). apply has_false in Hn. rewrite Hn.
  cbn [mbind result_bind]. by rewrite Hp.
Qed.

Lemma getVariableInParentRoot_dangling h a name fuel :
  h !! a = None → getVariableInParentRoot fuel h a name = Stuck.
Proof. intros Ha. destruct fuel; [done|]. cbn [getVariableInParentRoot]. by rewrite Ha. Qed.

(** X1: a binding that [defineVariable] returns is the one every lookup of
    the name from that scope gives afterwards, and it records the kind, the
    constant flag and the scope of the call. *)
Theorem defineVariable_then_lookup h a name kind constant h' d fuel :
  defineVariable h a name kind constant = Ok (h', d) →
  def_kind d = kind ∧ def_constant d = constant ∧ def_scope d = a
  ∧ hasVariable h' a name = Ok true
  ∧ getVariable h' a name = Ok d
  ∧ hasVariableInParentRoot h' a name = Ok true
  ∧ getVariableInParentRoot (S fuel) h' a name = Ok d.
Proof.
  intros Hdef.
  destruct (defineVariable_inv _ _ _ _ _ _ _ Hdef) as (s & Ha & _ & Hd & _).
  destruct (defineVariable_scope_after _ _ _ _ _ _ _ _ Ha Hdef) as [_ Ha'].
  assert (variables (mkSVScope (scope_id s) (parent s) (<[name := d]> (variables s)))
            !! name = Some d) as Hstored by apply lookup_insert_eq.
  repeat split.
  - by rewrite Hd.
  - by rewrite Hd.
  - by rewrite Hd.
  - eapply hasVariable_bound; [exact Ha'|]. by eexists.
  - by eapply getVariable_bound.
  - unfold hasVariableInParentRoot. rewrite Ha'.
    assert (has (mkSVScope (scope_id s) (parent s) (<[name := d]> (variables s))) name
            = true) as -> by (apply has_true; by eexists).
    done.
  - by eapply getVariableInParentRoot_here.
Qed.

(** X2: a successful [defineVariable] on a scope changes that scope's entry
    for the name and nothing else: the store keeps its size, every other
    scope is the same object as before, and the scope keeps its id, its
    parent and its bindings of all other names. *)
Theorem defineVariable_frame h a name kind constant h' d :
  defineVariable h a name kind constant = Ok (h', d) →
  length h' = length h
  ∧ (∀ b, b ≠ a → h' !! b = h !! b)
  ∧ ∃ s s', h !! a = Some s ∧ h' !! a = Some s'
            ∧ scope_id s' = scope_id s ∧ parent s' = parent s
            ∧ ∀ n, n ≠ name → variables s' !! n = variables s !! n.
Proof.
  intros Hdef.
  destruct (defineVariable_inv _ _ _ _ _ _ _ Hdef) as (s & Ha & _ & _ & ->).
  split; [apply length_insert|]. split.
  - intros b Hne. by apply list_lookup_insert_ne.
  - eexists s, _. split; [done|]. split.
    + apply list_lookup_insert_eq. by eapply lookup_lt_Some.
    + cbn [scope_id parent variables]. repeat split.
      intros n Hne. by apply lookup_insert_ne.
Qed.

Lemma defineVariable_other_name h a name kind constant h' d b n :
  defineVariable h a name kind constant = Ok (h', d) → n ≠ name →
  match h !! b, h' !! b with
  | Some s, Some s' => variables s' !! n = variables s !! n ∧ parent s' = parent s
  | None, None => True
  | _, _ => False
  end.
Proof.
  intros Hdef Hne.
  destruct (defineVariable_inv _ _ _ _ _ _ _ Hdef) as (s & Ha & _ & _ & ->).
  destruct (decide (b = a)) as [->|Hb].
  - rewrite Ha, list_lookup_insert_eq by (by eapply lookup_lt_Some).
    cbn [variables parent]. split; [|done]. by apply lookup_insert_ne.
  - rewrite list_lookup_insert_ne by done. by destruct (h !! b).
Qed.

(** X3: defining a name leaves the chained lookup of every other name as it
    was, from every scope of the store. *)
Theorem defineVariable_other_names_lookup h a name kind constant h' d n b fuel :
  defineVariable h a name kind constant = Ok (h', d) → n ≠ name →
  getVariableInParentRoot fuel h' b n = getVariableInParentRoot fuel h b n.
Proof.
  intros Hdef Hne. revert b. induction fuel as [|fuel IH]; intros b; [done|].
  pose proof (defineVariable_other_name _ _ _ _ _ _ _ b n Hdef Hne) as Hb.
  destruct (h !! b) as [s|] eqn:Hs, (h' !! b) as [s'|] eqn:Hs'; try done.
  - destruct Hb as [Hvars Hpar].
    destruct (variables s !! n) as [dn|] eqn:Hn.
    + rewrite (getVariableInParentRoot_here _ _ _ _ dn _ Hs') by congruence.
      by rewrite (getVariableInParentRoot_here _ _ _ _ dn _ Hs).
    + destruct (parent s) as [p|] eqn:Hp.
      * rewrite (getVariableInParentRoot_up _ _ _ p _ _ Hs') by congruence.
        rewrite (getVariableInParentRoot_up _ _ _ p _ _ Hs) by congruence.
        apply IH.
      * rewrite (getVariableInParentRoot_root _ _ _ _ _ Hs') by congruence.
        by rewrite (getVariableInParentRoot_root _ _ _ _ _ Hs).
  - by rewrite !getVariableInParentRoot_dangling.
Qed.

(** X4: a binding defined in a scope is what the chained lookup returns from
    that scope and from every scope below it that has no binding of the name
    between itself and that scope; bindings of the name further out are
    shadowed. *)
Theorem defineVariable_visible_below h a b name kind constant h' d fuel :
  heap_wf h → defineVariable h b name kind constant = Ok (h', d) →
  unboundUntil h name a b → a < fuel →
  getVariableInParentRoot fuel h' a name = Ok d.
Proof.
  intros Hwf Hdef Hchain. revert fuel.
  destruct (defineVariable_inv _ _ _ _ _ _ _ Hdef) as (sb & Hb & _ & _ & Hh').
  destruct (defineVariable_scope_after _ _ _ _ _ _ _ _ Hb Hdef) as [_ Hb'].
  assert (∀ fuel, getVariableInParentRoot (S fuel) h' b name = Ok d) as Hat.
  { intros fuel. eapply getVariableInParentRoot_here; [exact Hb'|].
    apply lookup_insert_eq. }
  induction Hchain as [b | a s p b Ha Hn Hp _ IH]; intros fuel Hfuel.
  - destruct fuel; [lia|]. apply Hat.
  - destruct fuel as [|fuel]; [lia|].
    destruct (decide (a = b)) as [->|Hne]; [apply Hat|].
    assert (h' !! a = Some s) as Ha'.
    { rewrite Hh'. by rewrite list_lookup_insert_ne. }
    rewrite (getVariableInParentRoot_up _ _ _ p _ _ Ha' Hn Hp).
    apply IH; [done..|]. specialize (Hwf _ _ _ Ha Hp). lia.
Qed.

(** *** Stores built through the class *)

Lemma bindings_owned_defineVariable h a name kind constant h' d :
  bindings_owned h → defineVariable h a name kind constant = Ok (h', d) →
  bindings_owned h'.
Proof.
  intros Hown Hdef.
  destruct (defineVariable_inv _ _ _ _ _ _ _ Hdef) as (s & Ha & _ & Hd & ->).
  intros b sb n dn Hb Hn. destruct (decide (b = a)) as [->|Hne].
  - rewrite list_lookup_insert_eq in Hb by (by eapply lookup_lt_Some).
    injection Hb as <-. cbn [variables] in Hn.
    destruct (decide (n = name)) as [->|Hnn].
    + rewrite lookup_insert_eq in Hn. injection Hn as <-. by rewrite Hd.
    + rewrite lookup_insert_ne in Hn by done. by eapply Hown.
  - rewrite list_lookup_insert_ne in Hb by done. by eapply Hown.
Qed.

Lemma built_invariants h : built h → heap_wf h ∧ bindings_owned h.
Proof.
  induction 1 as [|h id par _ [IHwf IHown] Hpar
                  |h a name kind constant h' d _ [IHwf IHown] Hdef].
  - split; [apply heap_wf_nil|]. intros a s name d Ha. by rewrite lookup_nil in Ha.
  - split; [by apply heap_wf_newSVScope|].
    intros a s name d Ha Hd. cbn [newSVScope fst] in Ha.
    apply lookup_app_Some in Ha as [Ha | [_ Ha]]; [by eapply IHown|].
    destruct (a - length h) as [|k]; cbn in Ha; [|done].
    injection Ha as <-. cbn [variables] in Hd. by rewrite lookup_empty in Hd.
  - split; [by eapply heap_wf_defineVariable | by eapply bindings_owned_defineVariable].
Qed.

(** X5: in every store built through the class, each [parent] reference
    points to a scope constructed earlier, so no chain of parents has a
    cycle, and the [scope] field of each binding is the scope that holds
    it. *)
Theorem built_store_invariants h :
  built h →
  (∀ a s p, h !! a = Some s → parent s = Some p → p < a ∧ is_Some (h !! p))
  ∧ ∀ a s name d, h !! a = Some s → variables s !! name = Some d → def_scope d = a.
Proof.
  intros Hbuilt. destruct (built_invariants h Hbuilt) as [Hwf Hown]. split; [|exact Hown].
  intros a s p Ha Hp. specialize (Hwf _ _ _ Ha Hp). split; [done|].
  apply lookup_lt_is_Some_2. apply lookup_lt_Some in Ha. lia.
Qed.

Lemma resolvesTo_owner h name a d :
  resolvesTo h name a d →
  ∃ b s, onChain h a b ∧ h !! b = Some s ∧ variables s !! name = Some d.
Proof.
  induction 1 as [a s d Ha Hd | a s p d Ha Hn Hp _ (b & sb & Hc & Hb & Hd)].
  - exists a, s. split; [by eapply onChain_self | done].
  - exists b, sb. split; [by eapply onChain_parent | done].
Qed.

(** X6: on a store built through the class the chained lookup always comes
    to an answer, with the store's size as fuel: either it throws and no
    scope of the chain binds the name, or it returns a binding whose [scope]
    field is a scope of the chain that holds this binding under the name. *)
Theorem getVariableInParentRoot_on_built h a name :
  built h → a < length h →
  (getVariableInParentRoot (length h) h a name = Throw (name +:+ " is not defined.")
   ∧ ¬ boundInChain h name a)
  ∨ ∃ d s, getVariableInParentRoot (length h) h a name = Ok d
           ∧ onChain h a (def_scope d)
           ∧ h !! def_scope d = Some s ∧ variables s !! name = Some d.
Proof.
  intros Hbuilt Hlen. destruct (built_invariants h Hbuilt) as [Hwf Hown].
  destruct (getVariableInParentRoot_resolves h name (length h) Hwf a Hlen Hlen)
    as [Hres Hunb].
  destruct (getVariableInParentRoot_total h name (length h) a Hwf Hlen Hlen)
    as [[d Hd] | Hthrow].
  - right. apply Hres in Hd as Hr.
    destruct (resolvesTo_owner _ _ _ _ Hr) as (b & s & Hc & Hb & Hbd).
    pose proof (Hown _ _ _ _ Hb Hbd) as Hsc. exists d, s. by rewrite Hsc.
  - left. split; [done|]. by apply Hunb.
Qed.

Lemma getVariableInParentRoot_older h (s0 : SVScope number) p name fuel :
  heap_wf h → p < length h →
  getVariableInParentRoot fuel (h ++ [s0]) p name = getVariableInParentRoot fuel h p name.
Proof.
  intros Hwf. revert p. induction fuel as [|fuel IH]; intros p Hlen; [done|].
  destruct (lookup_lt_is_Some_2 h p Hlen) as [s Hs].
  assert ((h ++ [s0]) !! p = Some s) as Hs' by (by rewrite lookup_app_l).
  destruct (variables s !! name) as [d|] eqn:Hn.
  - by rewrite (getVariableInParentRoot_here _ _ _ _ d _ Hs' Hn),
      (getVariableInParentRoot_here _ _ _ _ d _ Hs Hn).
  - destruct (parent s) as [q|] eqn:Hq.
    + rewrite (getVariableInParentRoot_up _ _ _ q _ _ Hs' Hn Hq),
        (getVariableInParentRoot_up _ _ _ q _ _ Hs Hn Hq).
      apply IH. specialize (Hwf _ _ _ Hs Hq). lia.
    + by rewrite (getVariableInParentRoot_root _ _ _ _ _ Hs' Hn Hq),
        (getVariableInParentRoot_root _ _ _ _ _ Hs Hn Hq).
Qed.

(** X7: a scope fresh from the constructor binds no name, and the chained
    lookup from it gives what the chained lookup from its parent gave before
    the scope existed; without a parent it throws for every name. *)
Theorem newSVScope_lookup h (id : number) (par : option addr) name fuel :
  heap_wf h → (∀ p, par = Some p → p < length h) →
  let '(h', a) := newSVScope id par h in
  hasVariable h' a name = Ok false
  ∧ getVariable h' a name = Throw (name +:+ " is not defined.")
  ∧ getVariableInParentRoot (S fuel) h' a name
    = match par with
      | Some p => getVariableInParentRoot fuel h p name
      | None => Throw (name +:+ " is not defined.")
      end.
Proof.
  intros Hwf Hpar. cbn [newSVScope].
  assert ((h ++ [mkSVScope id par ∅]) !! length h = Some (mkSVScope id par ∅)) as Ha.
  { rewrite lookup_app_r by lia. by rewrite Nat.sub_diag. }
  assert (variables (mkSVScope id par ∅) !! name = None) as Hn by apply lookup_empty.
  split; [|split].
  - rewrite (hasVariable_at _ _ _ _ Ha). f_equal; by apply has_false.
  - by eapply getVariable_unbound.
  - destruct par as [p|].
    + rewrite (getVariableInParentRoot_up _ _ _ p _ _ Ha Hn eq_refl).
      apply getVariableInParentRoot_older; [done|]. by apply Hpar.
    + by rewrite (getVariableInParentRoot_root _ _ _ _ _ Ha Hn eq_refl).
Qed.

(** X8: when [hasVariableInParentRoot] answers [true], the chained lookup of
    the name from the same scope returns a binding. *)
Theorem hasVariableInParentRoot_then_lookup h a name fuel :
  heap_wf h → a < fuel → hasVariableInParentRoot h a name = Ok true →
  ∃ d, getVariableInParentRoot fuel h a name = Ok d.
Proof.
  intros Hwf Hfuel Hhas.
  destruct (h !! a) as [s|] eqn:Ha;
    [|by unfold hasVariableInParentRoot in Hhas; rewrite Ha in Hhas].
  destruct fuel as [|fuel]; [lia|].
  apply (hasVariableInParentRoot_true _ _ _ _ Ha) in Hhas.
  destruct (variables s !! name) as [d|] eqn:Hn.
  - exists d. by eapply getVariableInParentRoot_here.
  - destruct Hhas as [[d Hd] | (p & sp & Hp & Hsp & [d Hd])]; [congruence|].
    exists d. rewrite (getVariableInParentRoot_up _ _ _ p _ _ Ha Hn Hp).
    specialize (Hwf _ _ _ Ha Hp). destruct fuel as [|fuel]; [lia|].
    by eapply getVariableInParentRoot_here.
Qed.

End ScopeFurther.

Section DefineRunsFurther.

Context {number : Type}.
Implicit Types (h : list (SVScope number)) (s : SVScope number).
Implicit Types (a b : addr) (d : SVScopeDefinition).
Implicit Types (calls : list (string * SVScopeDefinitionKindType * bool)).

Lemma defineAll_frame h a s calls h' ds :
  h !! a = Some s → defineAll h a calls = Ok (h', ds) →
  ∃ s', h' !! a = Some s' ∧ scope_id s' = scope_id s ∧ parent s' = parent s
        ∧ (∀ n, n ∉ callNames calls → variables s' !! n = variables s !! n)
        ∧ ∀ b, b ≠ a → h' !! b = h !! b.
Proof.
  revert h s h' ds.
  induction calls as [|[[name kind] constant] calls IH]; intros h s h' ds Ha.
  - intros [= <- <-]. by exists s.
  - intros (h1 & d0 & ds' & Hdef & Hrest & ->)%defineAll_cons_inv.
    destruct (defineVariable_scope_after _ _ _ _ _ _ _ _ Ha Hdef) as [_ Ha1].
    destruct (defineVariable_inv _ _ _ _ _ _ _ Hdef) as (s0 & Ha0 & _ & _ & Hh1).
    destruct (IH _ _ _ _ Ha1 Hrest) as (s' & Hs' & Hid & Hpar & Hkeep & Hother).
    exists s'. split; [done|]. split; [done|]. split; [done|]. split.
    + intros n Hn. cbn [callNames map fst] in Hn.
      apply not_elem_of_cons in Hn as [Hne Hn].
      rewrite (Hkeep n Hn). cbn [variables]. by apply lookup_insert_ne.
    + intros b Hb. rewrite (Hother b Hb), Hh1. by apply list_lookup_insert_ne.
Qed.

(** X9: a run of successful [defineVariable] calls on a scope only adds
    bindings to that scope.  Afterwards the scope binds exactly the names it
    bound before and the names of the calls; its bindings of names no call
    mentions are the ones it had; its id and parent are unchanged; and every
    other scope of the store is untouched. *)
Theorem defineAll_bindings_kept h a s calls h' ds :
  h !! a = Some s → defineAll h a calls = Ok (h', ds) →
  ∃ s', h' !! a = Some s' ∧ scope_id s' = scope_id s ∧ parent s' = parent s
        ∧ (∀ n, is_Some (variables s' !! n)
                ↔ is_Some (variables s !! n) ∨ n ∈ callNames calls)
        ∧ (∀ n, n ∉ callNames calls → variables s' !! n = variables s !! n)
        ∧ ∀ b, b ≠ a → h' !! b = h !! b.
Proof.
  intros Ha Hrun.
  destruct (defineAll_frame _ _ _ _ _ _ Ha Hrun) as (s' & Hs' & Hid & Hpar & Hkeep & Hother).
  destruct (defineAll_scope_after _ _ _ _ _ _ Ha Hrun) as (s'' & Hs'' & Hdom & _).
  rewrite Hs' in Hs''. injection Hs'' as <-.
  exists s'. split; [done|]. split; [done|]. split; [done|]. split; [|by split].
  intros n. rewrite <- !elem_of_dom, Hdom, elem_of_union, elem_of_list_to_set. done.
Qed.

(** X10: a run of [defineVariable] calls on a scope goes through without a
    throw exactly when every call either has kind [var] or defines a name
    that the scope did not bind before the run and that no earlier call of
    the run defined. *)
Theorem defineAll_succeeds_iff h a s calls :
  h !! a = Some s →
  (∃ r, defineAll h a calls = Ok r) ↔
  ∀ i n k c, calls !! i = Some (n, k, c) →
    k = KVar ∨ (variables s !! n = None ∧ n ∉ take i (callNames calls)).
Proof.
  revert h s. induction calls as [|[[name kind] constant] calls IH]; intros h s Ha.
  - split; [intros _ i n k c Hi; by rewrite lookup_nil in Hi|].
    intros _. by eexists.
  - split.
    + intros [[h' ds] (h1 & d0 & ds' & Hdef & Hrest & ->)%defineAll_cons_inv].
      destruct (defineVariable_scope_after _ _ _ _ _ _ _ _ Ha Hdef) as [_ Ha1].
      destruct (defineVariable_inv _ _ _ _ _ _ _ Hdef) as (s0 & Ha0 & Hc & _ & _).
      rewrite Ha in Ha0. injection Ha0 as <-.
      pose proof (proj1 (IH _ _ Ha1) (ex_intro _ _ Hrest)) as Hall.
      intros [|i] n k c Hi.
      * injection Hi as <- <- <-. apply orb_true_iff in Hc as [Hc | Hc].
        -- right. split; [|by rewrite take_0; apply not_elem_of_nil].
           apply has_false. by destruct (has s name).
        -- left. by destruct kind.
      * cbn in Hi. destruct (Hall i n k c Hi) as [-> | [Hn Hin]]; [by left|].
        right. cbn [variables] in Hn. apply lookup_insert_None in Hn as [Hn Hne].
        split; [done|]. cbn [callNames map fst take].
        apply not_elem_of_cons. split; [done|]. exact Hin.
    + intros Hall.
      assert (negb (has s name) || is_var kind = true) as Hc.
      { destruct (Hall 0 name kind constant eq_refl) as [-> | [Hn _]].
        - apply orb_true_r.
        - apply has_false in Hn. by rewrite Hn. }
      pose proof (defineVariable_ok _ _ _ _ _ constant Ha Hc) as Hdef.
      destruct (defineVariable_scope_after _ _ _ _ _ _ _ _ Ha Hdef) as [_ Ha1].
      destruct (proj2 (IH _ _ Ha1)) as [[h' ds] Hrest].
      { intros i n k c Hi.
        destruct (Hall (S i) n k c Hi) as [-> | [Hn Hin]]; [by left|].
        right. cbn [callNames map fst take] in Hin.
        apply not_elem_of_cons in Hin as [Hne Hin].
        split; [|exact Hin]. cbn [variables]. apply lookup_insert_None. by split. }
      eexists. cbn [defineAll]. rewrite Hdef. cbn [mbind result_bind].
      rewrite Hrest. reflexivity.
Qed.

End DefineRunsFurther.

(** *** The further properties on the chain of three scopes *)

Ltac nestedScopes_wf :=
  let a := fresh "a" in
  let Ha := fresh "Ha" in
  let Hp := fresh "Hp" in
  intros a ? ? Ha Hp;
  destruct a as [|[|[|a]]]; simpl in Ha; simplify_eq; simpl in Hp; simplify_eq; lia.

Ltac nestedScopes_built :=
  apply (built_define
           [mkSVScope 0%Z None ∅; mkSVScope 1%Z (Some 0) ∅; mkSVScope 2%Z (Some 1) ∅]
           0 "x" KLet false nestedScopes (mkSVScopeDefinition 0 KLet false 0));
  [ apply (built_new [mkSVScope 0%Z None ∅; mkSVScope 1%Z (Some 0) ∅] 2%Z (Some 1));
    [ apply (built_new [mkSVScope 0%Z None ∅] 1%Z (Some 0));
      [ apply (built_new [] 0%Z None); [apply built_empty | discriminate]
      | intros ? [= <-]; simpl; lia ]
    | intros ? [= <-]; simpl; lia ]
  | reflexivity ].

Lemma defineVariable_then_lookup_witness :
  ∃ h', defineVariable nestedScopes 2 "y" KConst true
        = Ok (h', mkSVScopeDefinition 0 KConst true 2)
        ∧ getVariable h' 2 "y" = Ok (mkSVScopeDefinition 0 KConst true 2)
        ∧ getVariableInParentRoot 1 h' 2 "y" = Ok (mkSVScopeDefinition 0 KConst true 2).
Proof.
  eexists. split; [reflexivity|].
  pose proof (defineVariable_then_lookup nestedScopes 2 "y" KConst true _ _ 0 eq_refl)
    as (_ & _ & _ & _ & Hget & _ & Hchain).
  split; [exact Hget | exact Hchain].
Defined.

Lemma defineVariable_frame_witness :
  ∃ h', defineVariable nestedScopes 2 "y" KConst true
        = Ok (h', mkSVScopeDefinition 0 KConst true 2)
        ∧ length h' = 3 ∧ h' !! 0 = nestedScopes !! 0 ∧ h' !! 1 = nestedScopes !! 1.
Proof.
  eexists. split; [reflexivity|].
  pose proof (defineVariable_frame nestedScopes 2 "y" KConst true _ _ eq_refl)
    as (Hlen & Hother & _).
  split; [exact Hlen|]. split; apply Hother; lia.
Defined.

Lemma defineVariable_other_names_lookup_witness :
  ∃ h', defineVariable nestedScopes 2 "y" KConst true
        = Ok (h', mkSVScopeDefinition 0 KConst true 2)
        ∧ getVariableInParentRoot 3 h' 2 "x" = Ok (mkSVScopeDefinition 0 KLet false 0).
Proof.
  eexists. split; [reflexivity|].
  rewrite (defineVariable_other_names_lookup nestedScopes 2 "y" KConst true _ _ "x" 2 3
             eq_refl); [reflexivity | discriminate].
Defined.

Lemma defineVariable_visible_below_witness :
  ∃ h', defineVariable nestedScopes 1 "x" KVar false
        = Ok (h', mkSVScopeDefinition 0 KVar false 1)
        ∧ getVariableInParentRoot 3 h' 2 "x" = Ok (mkSVScopeDefinition 0 KVar false 1)
        ∧ getVariableInParentRoot 3 h' 0 "x" = Ok (mkSVScopeDefinition 0 KLet false 0).
Proof.
  eexists. split; [reflexivity|]. split; [|reflexivity].
  apply (defineVariable_visible_below nestedScopes 2 1 "x" KVar false).
  - nestedScopes_wf.
  - reflexivity.
  - eapply unbound_step; [reflexivity..|]. apply unbound_stop.
  - lia.
Defined.

Lemma built_store_invariants_witness :
  (∀ a s p, nestedScopes !! a = Some s → parent s = Some p →
     p < a ∧ is_Some (nestedScopes !! p))
  ∧ ∀ a s name d, nestedScopes !! a = Some s → variables s !! name = Some d →
      def_scope d = a.
Proof. apply (built_store_invariants nestedScopes). nestedScopes_built. Defined.

Lemma getVariableInParentRoot_on_built_witness :
  ∃ s, getVariableInParentRoot 3 nestedScopes 2 "x" = Ok (mkSVScopeDefinition 0 KLet false 0)
       ∧ nestedScopes !! 0 = Some s
       ∧ variables s !! "x" = Some (mkSVScopeDefinition 0 KLet false 0).
Proof.
  destruct (getVariableInParentRoot_on_built nestedScopes 2 "x")
    as [[Hthrow _] | (d & s & Hget & _ & Hs & Hx)].
  - nestedScopes_built.
  - simpl. lia.
  - discriminate Hthrow.
  - injection Hget as <-. by exists s.
Defined.

Lemma newSVScope_lookup_witness :
  let '(h', a) := newSVScope 3%Z (Some 2) nestedScopes in
  hasVariable h' a "x" = Ok false
  ∧ getVariable h' a "x" = Throw "x is not defined."
  ∧ getVariableInParentRoot 4 h' a "x" = Ok (mkSVScopeDefinition 0 KLet false 0).
Proof.
  apply (newSVScope_lookup nestedScopes 3%Z (Some 2) "x" 3).
  - nestedScopes_wf.
  - intros p [= <-]. simpl. lia.
Defined.

Lemma hasVariableInParentRoot_then_lookup_witness :
  ∃ d, getVariableInParentRoot 2 nestedScopes 1 "x" = Ok d.
Proof.
  apply (hasVariableInParentRoot_then_lookup nestedScopes 1 "x" 2).
  - nestedScopes_wf.
  - lia.
  - reflexivity.
Defined.

Lemma defineAll_bindings_kept_witness :
  ∃ h' ds s',
    defineAll nestedScopes 0 [("y", KLet, false); ("x", KVar, false)] = Ok (h', ds)
    ∧ h' !! 0 = Some s' ∧ parent s' = None
    ∧ h' !! 1 = nestedScopes !! 1.
Proof.
  eexists _, _.
  destruct (defineAll_bindings_kept nestedScopes 0 _
              [("y", KLet, false); ("x", KVar, false)] _ _ eq_refl eq_refl)
    as (s' & Hs' & _ & Hpar & _ & _ & Hother).
  exists s'. split; [reflexivity|]. split; [exact Hs'|]. split; [exact Hpar|].
  apply Hother. lia.
Defined.

Lemma defineAll_succeeds_iff_witness :
  (∃ r, defineAll nestedScopes 0 [("x", KVar, false); ("y", KLet, false)] = Ok r)
  ∧ ¬ ∃ r, defineAll nestedScopes 0 [("y", KVar, false); ("y", KLet, false)] = Ok r.
Proof.
  split.
  - apply (defineAll_succeeds_iff nestedScopes 0 _ _ eq_refl).
    intros [|[|i]] n k c Hi; cbn in Hi; simplify_eq.
    + by left.
    + right. split; [reflexivity|]. cbn. set_solver.
  - intros Hok.
    pose proof (proj1 (defineAll_succeeds_iff nestedScopes 0 _
                         [("y", KVar, false); ("y", KLet, false)] eq_refl) Hok) as Hall.
    destruct (Hall 1 "y" KLet false eq_refl) as [Hk | [_ Hin]]; [discriminate|].
    apply Hin. cbn. set_solver.
Defined.


(** * Further properties of the pass *)

Section PassFurther.

Context {number : Type}.
Implicit Types (node : Node number) (this that : Parser number).
Implicit Types (element : option (Node number)) (body : list (Node number)).

#[local] Abbreviation elementScan :=
  (scanElement (λ node : Node number, scanNode node false)).
#[local] Abbreviation elementScans :=
  (map (λ element : option (Node number), (element, elementScan element))).

(** *** A scan reads the parser's global names and nothing else *)

Lemma runEach_reads_globals_only (l : list (option (Node number))) this that :
  globals this = globals that →
  Forall (λ element, ∀ node, element = Some node → reads_globals_only node) l →
  ∃ elements' completion,
    runEach (elementScans l) this = (elements', this, completion)
    ∧ runEach (elementScans l) that = (elements', that, completion).
Proof.
  intros Hg. induction 1 as [|element l Helement _ (elements' & completion & IH1 & IH2)].
  - by eexists _, _.
  - cbn [map runEach]. destruct element as [node|]; cbn [scanElement].
    + destruct (Helement node eq_refl this that Hg) as (node' & c & -> & ->).
      destruct c as [svNode| |]; [|by eexists _, _..].
      rewrite IH1, IH2. by eexists _, _.
    + by eexists _, _.
Qed.

Lemma scanDeclarations_reads_globals_only kind
    (declarations : list (VariableDeclarator (Node number))) this that :
  globals this = globals that →
  Forall (λ declarator, ∀ init, decl_init declarator = Some init → reads_globals_only init)
    declarations →
  ∃ declarations' completion,
    scanDeclarations (λ init, scanNode init false) kind declarations this
    = (declarations', this, completion)
    ∧ scanDeclarations (λ init, scanNode init false) kind declarations that
      = (declarations', that, completion).
Proof.
  intros Hg.
  induction 1 as [|[pattern init] rest Hinit _ (rest' & completion & IH1 & IH2)].
  - by eexists _, _.
  - cbn [scanDeclarations decl_id decl_init].
    destruct pattern; try (rewrite IH1, IH2; by eexists _, _).
    destruct init as [init|].
    + destruct (Hinit init eq_refl this that Hg) as (init' & c & -> & ->).
      destruct c as [value| |]; [|by eexists _, _..].
      rewrite IH1, IH2. by eexists _, _.
    + rewrite IH1, IH2. by eexists _, _.
Qed.

Lemma scanNode_reads_globals_only node : reads_globals_only node.
Proof.
  induction node as
    [ value | value | value | l r operator IHl IHr | l r operator IHl IHr
    | argument operator IHa | elements IHe | expression IHx | name
    | kind declarations IHd | type children ] using Node_scan_ind;
    intros this that Hg; cbn [scanNode].
  - by eexists _, _.
  - by eexists _, _.
  - by eexists _, _.
  - destruct (IHl this that Hg) as (l' & cl & -> & ->).
    destruct cl as [left'| |]; [|by eexists _, _..].
    destruct (IHr this that Hg) as (r' & cr & -> & ->).
    destruct cr as [right'| |]; by eexists _, _.
  - destruct (IHl this that Hg) as (l' & cl & -> & ->).
    destruct cl as [left'| |]; [|by eexists _, _..].
    destruct (IHr this that Hg) as (r' & cr & -> & ->).
    destruct cr as [right'| |]; by eexists _, _.
  - destruct (IHa this that Hg) as (a' & ca & -> & ->).
    destruct ca as [arg| |]; by eexists _, _.
  - rewrite <- map_rev.
    destruct (runEach_reads_globals_only (rev elements) this that Hg)
      as (es' & c & -> & ->); [by apply Forall_rev|].
    destruct c as [nodeElements| |]; by eexists _, _.
  - destruct (IHx this that Hg) as (x' & cx & -> & ->).
    destruct cx as [svNode| |]; by eexists _, _.
  - rewrite Hg. by eexists _, _.
  - destruct (scanDeclarations_reads_globals_only kind declarations this that Hg IHd)
      as (ds' & c & -> & ->).
    destruct c as [variables| |]; by eexists _, _.
  - by eexists _, _.
Qed.

Lemma scanNode_same_globals node this that node' completion :
  globals that = globals this →
  scanNode node false that = (node', that, completion) →
  scanNode node false this = (node', this, completion).
Proof.
  intros Hg Hthat.
  destruct (scanNode_reads_globals_only node that this Hg) as (n & c & H1 & H2).
  rewrite H1 in Hthat. injection Hthat as -> ->. exact H2.
Qed.

(** *** Which kinds return a node *)

Lemma scanNode_returned node this node' this' svNode isForRoot :
  scanNode node isForRoot this = (node', this', Ok svNode) →
  svNode = None ↔ producesNode node = false.
Proof.
  rewrite scanNode_for_root.
  destruct (scanNode_keeps_parser node this) as (n & c & Hscan). rewrite Hscan.
  intros [= <- _ ->]. revert Hscan.
  destruct node; cbn;
    repeat match goal with
           | |- context [scanNode ?n false ?t] =>
               destruct (scanNode n false t) as [[? ?] [?| |]]; cbn
           | |- context [runEach ?l ?t] =>
               destruct (runEach l t) as [[? ?] [?| |]]; cbn
           | |- context [scanDeclarations ?f ?k ?l ?t] =>
               destruct (scanDeclarations f k l t) as [[? ?] [?| |]]; cbn
           end;
    intros ?; by simplify_eq.
Qed.

(** X11: [isForRoot] decides one thing only.  With [false] a scan leaves the
    parser exactly as it was, however it ends; with [true] the tree is left
    the same and the scan ends the same way, and the parser differs only
    when a node is returned: that node is then appended to [nodesRoot].  A
    scan returns or throws; it returns a node only for a kind other than the
    expression statement, the declaration statement and the kinds without a
    case, and for none of the other kinds does it return without one. *)
Theorem scanNode_isForRoot_only_pushes node this :
  ∃ node' completion,
    scanNode node false this = (node', this, completion)
    ∧ scanNode node true this
      = (node',
         match completion with
         | Ok (Some svNode) => mkParser (globals this) (nodesRoot this ++ [svNode])
         | _ => this
         end,
         completion)
    ∧ completion ≠ Stuck
    ∧ (∀ svNode, completion = Ok svNode → svNode = None ↔ producesNode node = false).
Proof.
  destruct (scanNode_completes node this) as (node' & c & Hscan & Hc).
  exists node', c. split; [done|]. split; [|split; [done|]].
  - rewrite scanNode_for_root, Hscan. by destruct c as [[svNode|]| |].
  - intros svNode ->. by eapply scanNode_returned.
Qed.

(** X12: the loop over the program body scans the statements in source
    order up to the first one whose scan throws, and throws what that scan
    throws.  It keeps the global names and what [nodesRoot] held, and
    appends behind it, in source order, the nodes returned by the scans that
    returned one.  Each statement is left untouched or as its scan leaves
    it. *)
Theorem scanBody_output_in_order body this :
  ∃ body' added completion reached,
    scanBody body this
    = (body', mkParser (globals this) (nodesRoot this ++ added), completion)
    ∧ Forall2 (λ node node',
                 node' = node ∨ ∃ c, scanNode node false this = (node', this, c))
        body body'
    ∧ Forall (λ node, ∃ node' svNode, scanNode node false this = (node', this, Ok svNode))
        (take reached body)
    ∧ Forall2 (λ node sv, ∃ node', scanNode node false this = (node', this, Ok (Some sv)))
        (List.filter producesNode (take reached body)) added
    ∧ match completion with
      | Ok _ => reached = length body
      | Throw message =>
          ∃ node node', body !! reached = Some node
                        ∧ scanNode node false this = (node', this, Throw message)
      | Stuck => False
      end.
Proof.
  revert this. induction body as [|node body IH]; intros this.
  - exists [], [], (Ok tt), 0. cbn [scanBody]. rewrite app_nil_r.
    split; [by destruct this|]. by repeat split; constructor.
  - rewrite scanBody_cons.
    destruct (scanNode_completes node this) as (node' & c & Hscan & Hc).
    rewrite Hscan. destruct c as [svNode| |]; [| |done].
    + pose proof (scanNode_returned _ _ _ _ _ _ Hscan) as Hreturned.
      set (this1 := rootPush true (Ok svNode) this).
      assert (globals this1 = globals this) as Hg by apply globals_rootPush.
      destruct (IH this1) as (body' & added & c & reached & -> & Htree & Hall & Hadded & Hend).
      exists (node' :: body'), (option_list svNode ++ added), c, (S reached).
      split; [|split; [|split; [|split]]].
      * f_equal. f_equal. rewrite Hg. f_equal. unfold this1.
        destruct svNode; cbn; [|done]. by rewrite <- app_assoc.
      * constructor; [right; by eexists|].
        eapply Forall2_impl; [exact Htree|].
        intros n n' [-> | [c' Hn]]; [by left|]. right. exists c'.
        by eapply scanNode_same_globals.
      * cbn [take]. constructor; [by eexists _, _|].
        eapply Forall_impl; [exact Hall|].
        intros n (n' & sv & Hn). exists n', sv. by eapply scanNode_same_globals.
      * assert (Forall2 (λ n sv, ∃ n', scanNode n false this = (n', this, Ok (Some sv)))
                  (List.filter producesNode (take reached body)) added) as Hadded'.
        { eapply Forall2_impl; [exact Hadded|].
          intros n sv [n' Hn]. exists n'. by eapply scanNode_same_globals. }
        cbn [take List.filter]. destruct svNode as [sv|].
        -- destruct (producesNode node) eqn:Hp; [|by destruct Hreturned as [_ Hnone]; specialize (Hnone eq_refl)].
           cbn. constructor; [by eexists|done].
        -- rewrite (proj1 Hreturned eq_refl). exact Hadded'.
      * destruct c as [[]|message|]; [by cbn; f_equal | | done].
        destruct Hend as (n & n' & Hlookup & Hn). exists n, n'. split; [done|].
        by eapply scanNode_same_globals.
    + exists (node' :: body), [], (Throw message), 0. rewrite app_nil_r.
      split; [by destruct this|]. split; [|split; [|split]].
      * constructor; [right; by eexists|]. clear. induction body; constructor; auto.
      * constructor.
      * constructor.
      * by exists node, node'.
Qed.

Lemma elem_of_globals_prepass this (visits : list (string * bool)) name :
  name ∈ globals (foldl visitIdentifier this visits)
  ↔ name ∈ globals this ∨ (name, true) ∈ visits.
Proof.
  revert this. induction visits as [|[n isGlobal] visits IH]; intros this.
  - cbn [foldl]. split; [by left|]. intros [?|Hin]; [done|]. by apply elem_of_nil in Hin.
  - cbn [foldl]. rewrite IH, elem_of_cons. unfold visitIdentifier.
    destruct isGlobal; cbn [negb orb].
    + destruct (bool_decide (n ∈ globals this)) eqn:Hn.
      * apply bool_decide_eq_true in Hn. split; [tauto|].
        intros [?|[[= ->]|?]]; tauto.
      * cbn [globals]. rewrite elem_of_union, elem_of_singleton. split.
        -- intros [[->|?]|?]; tauto.
        -- intros [?|[[= ->]|?]]; tauto.
    + split; [tauto|]. intros [?|[Heq|?]]; [tauto | discriminate Heq | tauto].
Qed.

(** X13: the pre-pass only ever adds names.  After it a name is in the set
    of globals exactly when it was there before or one of the visited
    identifiers of that name was found global; [nodesRoot] is not touched. *)
Theorem prepass_globals this (visits : list (string * bool)) :
  nodesRoot (foldl visitIdentifier this visits) = nodesRoot this
  ∧ ∀ name,
      name ∈ globals (foldl visitIdentifier this visits)
      ↔ name ∈ globals this ∨ (name, true) ∈ visits.
Proof. split; [apply nodesRoot_prepass | apply elem_of_globals_prepass]. Qed.

Lemma parse_keeps identifierPaths body this :
  ∃ body' this' completion,
    parse identifierPaths body this = (body', this', completion)
    ∧ completion ≠ Stuck
    ∧ nodesRoot this `prefix_of` nodesRoot this'
    ∧ globals this ⊆ globals this'
    ∧ ∀ returned, completion = Ok returned → returned = nodesRoot this'.
Proof.
  unfold parse. set (this1 := foldl visitIdentifier this (identifierPaths body)).
  destruct (scanBody_spec body this1) as (body' & this2 & c & -> & Hc & Hg & Hn & _).
  eexists _, _, _. split; [reflexivity|]. split; [by destruct c|].
  split; [|split].
  - unfold this1 in Hn. by rewrite nodesRoot_prepass in Hn.
  - rewrite Hg. intros name Hin. apply elem_of_globals_prepass. by left.
  - intros returned. destruct c; cbn; by intros [= <-].
Qed.

(** X14: a parser keeps what it collected, also over a throw.  A second
    [parse] on the same parser starts from the output and the global names
    the first one left: both calls leave [nodesRoot] with what it held at its
    front and the set of globals with the names it held, and a call that
    returns returns [nodesRoot] as it then is. *)
Theorem parse_accumulates identifierPaths body1 body2 this :
  ∃ body1' this1 completion1 body2' this2 completion2,
    parse identifierPaths body1 this = (body1', this1, completion1)
    ∧ parse identifierPaths body2 this1 = (body2', this2, completion2)
    ∧ completion1 ≠ Stuck ∧ completion2 ≠ Stuck
    ∧ nodesRoot this `prefix_of` nodesRoot this1
    ∧ nodesRoot this1 `prefix_of` nodesRoot this2
    ∧ globals this ⊆ globals this1 ∧ globals this1 ⊆ globals this2
    ∧ (∀ returned, completion1 = Ok returned → returned = nodesRoot this1)
    ∧ (∀ returned, completion2 = Ok returned →
         returned = nodesRoot this2 ∧ nodesRoot this `prefix_of` returned).
Proof.
  destruct (parse_keeps identifierPaths body1 this)
    as (body1' & this1 & c1 & H1 & Hc1 & Hn1 & Hg1 & Hr1).
  destruct (parse_keeps identifierPaths body2 this1)
    as (body2' & this2 & c2 & H2 & Hc2 & Hn2 & Hg2 & Hr2).
  exists body1', this1, c1, body2', this2, c2. repeat split; try done.
  - by apply Hr2.
  - rewrite (Hr2 _ H). by etrans.
Qed.

(** *** A second scan *)

Lemma Forall2_rev {A B : Type} (R : A → B → Prop) (l : list A) (k : list B) :
  Forall2 R l k → Forall2 R (rev l) (rev k).
Proof.
  induction 1 as [|x y l k Hxy _ IH]; [constructor|].
  cbn [rev]. apply Forall2_app; [exact IH|]. by repeat constructor.
Qed.

Lemma runEach_restores (l l' : list (option (Node number))) this that :
  Forall (λ element, ∀ node, element = Some node → restores node) l →
  Forall2 (λ element element',
             ∃ svNode, elementScan element this = (element', this, Ok svNode)) l l' →
  ∃ nodeElements, runEach (elementScans l') that = (l, that, Ok nodeElements).
Proof.
  intros Hall Hscans. induction Hscans as [|element element' l l' [sv Hscan] _ IH].
  - by eexists.
  - apply Forall_cons in Hall as [Helement Hall].
    destruct (IH Hall) as [nodeElements Hrun].
    destruct (elementScan_inv _ _ _ _ _ Hscan)
      as [(_ & _ & _ & ?) | (node & node' & -> & -> & Hnode)]; [done|].
    destruct (Helement node eq_refl this that node' sv Hnode) as [sv2 Hback].
    cbn [map runEach]. rewrite (elementScan_Some _ _ _ _ Hback), Hrun. by eexists.
Qed.

Lemma scanNode_restores node : restores node.
Proof.
  induction node as
    [ value | value | value | l r operator IHl IHr | l r operator IHl IHr
    | argument operator IHa | elements IHe | expression IHx | name
    | kind declarations IHd | type children ] using Node_scan_ind;
    intros this that node' svNode.
  - cbn. intros [= <- _]. by eexists.
  - cbn. intros [= <- _]. by eexists.
  - cbn. intros [= <- _]. by eexists.
  - cbn [scanNode].
    destruct (scanNode_keeps_parser l this) as (l' & cl & Hl). rewrite Hl.
    destruct cl as [left'| |]; [|by cbn..].
    destruct (scanNode_keeps_parser r this) as (r' & cr & Hr). rewrite Hr.
    destruct cr as [right'| |]; [|by cbn..]. cbn. intros [= <- _]. cbn [scanNode].
    destruct (IHl this that l' left' Hl) as [left2 ->].
    destruct (IHr this that r' right' Hr) as [right2 ->]. by eexists.
  - cbn [scanNode].
    destruct (scanNode_keeps_parser l this) as (l' & cl & Hl). rewrite Hl.
    destruct cl as [left'| |]; [|by cbn..].
    destruct (scanNode_keeps_parser r this) as (r' & cr & Hr). rewrite Hr.
    destruct cr as [right'| |]; [|by cbn..]. cbn. intros [= <- _]. cbn [scanNode].
    destruct (IHl this that l' left' Hl) as [left2 ->].
    destruct (IHr this that r' right' Hr) as [right2 ->]. by eexists.
  - cbn [scanNode].
    destruct (scanNode_keeps_parser argument this) as (a' & ca & Ha). rewrite Ha.
    destruct ca as [arg| |]; [|by cbn..]. cbn. intros [= <- _]. cbn [scanNode].
    destruct (IHa this that a' arg Ha) as [arg2 ->]. by eexists.
  - rewrite scanNode_array_loop.
    destruct (runEach_spec (rev elements) this)
      as (elements' & c & -> & _ & _ & _ & Hok).
    destruct c as [nodeElements| |]; [|by cbn..]. cbn. intros [= <- _].
    destruct (Hok nodeElements eq_refl) as [Htree _].
    destruct (runEach_restores (rev (rev elements)) (rev elements') this that)
      as [nodeElements2 Hrun].
    { rewrite rev_involutive. exact IHe. }
    { by apply Forall2_rev. }
    rewrite scanNode_array_loop, Hrun, rev_involutive. by eexists.
  - cbn [scanNode].
    destruct (scanNode_keeps_parser expression this) as (x' & cx & Hx). rewrite Hx.
    destruct cx as [sv| |]; [|by cbn..]. cbn. intros [= <- _]. cbn [scanNode].
    destruct (IHx this that x' sv Hx) as [sv2 ->]. by eexists.
  - cbn. intros [= <- _]. by eexists.
  - rewrite scanNode_declaration_loop.
    destruct (scanDeclarations_spec kind declarations this) as (ds' & c & -> & _).
    by destruct c.
  - cbn. intros [= <- _]. by eexists.
Qed.

(** X15: when a scan returns, a scan of the tree it left returns too and
    leaves the original tree again: the array literals the first scan
    reversed are reversed back. *)
Theorem scanNode_twice_restores_tree node isForRoot1 isForRoot2 this that
    node' this1 svNode1 :
  scanNode node isForRoot1 this = (node', this1, Ok svNode1) →
  ∃ svNode2 that2, scanNode node' isForRoot2 that = (node, that2, Ok svNode2).
Proof.
  rewrite scanNode_for_root.
  destruct (scanNode_keeps_parser node this) as (n & c & Hscan). rewrite Hscan.
  intros [= <- _ ->].
  destruct (scanNode_restores node this that n svNode1 Hscan) as [svNode2 Hback].
  rewrite scanNode_for_root, Hback. by eexists _, _.
Qed.

Lemma runEach_unchanged (l : list (option (Node number))) this :
  (∀ element, element ∈ l →
     ∃ node svNode,
       element = Some node ∧ scanNode node false this = (node, this, Ok svNode)) →
  ∃ nodeElements,
    runEach (elementScans l) this = (l, this, Ok nodeElements)
    ∧ Forall2 (λ element svNode,
                 ∃ node, element = Some node
                         ∧ scanNode node false this = (node, this, Ok svNode))
        l nodeElements.
Proof.
  induction l as [|element l IH]; intros Hsame.
  - exists []. split; [done|constructor].
  - destruct (Hsame element) as (node & sv & -> & Hnode); [left|].
    destruct IH as (nodeElements & Hrun & Hall).
    { intros e He. apply Hsame. by right. }
    exists (sv :: nodeElements). cbn [map runEach].
    rewrite (elementScan_Some _ _ _ _ Hnode), Hrun. split; [done|].
    constructor; [by eexists|done].
Qed.

(** X16: a second scan of the same array literal does not give the result of
    the first.  When the scans of the elements return and leave them as they
    are, the first scan returns the elements' nodes in reversed order and
    leaves the literal reversed, and a scan of the literal as it then is
    returns them in source order and leaves the literal as it first was. *)
Theorem scanNode_array_second_scan (elements : list (option (Node number)))
    isForRoot this :
  (∀ element, element ∈ elements →
     ∃ node svNode,
       element = Some node ∧ scanNode node false this = (node, this, Ok svNode)) →
  ∃ this1 second,
    scanNode (ArrayExpression elements) isForRoot this
    = (ArrayExpression (rev elements), this1,
       Ok (Some (SVArrayExpression (rev second))))
    ∧ scanNode (ArrayExpression (rev elements)) false this1
      = (ArrayExpression elements, this1, Ok (Some (SVArrayExpression second)))
    ∧ Forall2 (λ element svNode,
                 ∃ node, element = Some node
                         ∧ scanNode node false this = (node, this, Ok svNode))
        elements second.
Proof.
  intros Hsame.
  destruct (runEach_unchanged (rev elements) this) as (first & Hfirst & Hall1).
  { intros element Hin%elem_of_rev. by apply Hsame. }
  destruct (runEach_unchanged elements this Hsame) as (second & Hsecond & Hall2).
  assert (first = rev second) as ->.
  { apply Forall2_rev in Hall2. clear Hfirst Hsecond. revert Hall1 Hall2. generalize (rev elements) (rev second).
    intros l k Hfirst'. revert k.
    induction Hfirst' as [|e sv l first (n & -> & Hn) _ IH]; intros k Hk.
    - by apply Forall2_nil_inv_l in Hk.
    - apply Forall2_cons_inv_l in Hk as (sv' & k' & (n' & [= <-] & Hn') & Hk & ->).
      rewrite Hn in Hn'. injection Hn' as <-. f_equal. by apply IH. }
  eexists _, second. split; [|split; [|exact Hall2]].
  - rewrite scanNode_array_loop, Hfirst. reflexivity.
  - eapply scanNode_same_globals; [|by rewrite scanNode_array_loop, rev_involutive, Hsecond].
    by destruct isForRoot.
Qed.

End PassFurther.

Lemma scanNode_twice_restores_tree_witness :
  scanNode (ArrayExpression [Some (NumericLiteral 1%Z); Some (NumericLiteral 2%Z)])
    true newParser
  = (ArrayExpression [Some (NumericLiteral 2%Z); Some (NumericLiteral 1%Z)],
     push (SVArrayExpression [Some (SVLiteral (JSNumber 2%Z));
                              Some (SVLiteral (JSNumber 1%Z))]) newParser,
     Ok (Some (SVArrayExpression [Some (SVLiteral (JSNumber 2%Z));
                                  Some (SVLiteral (JSNumber 1%Z))])))
  ∧ ∃ svNode2 that2,
      scanNode (ArrayExpression [Some (NumericLiteral 2%Z); Some (NumericLiteral 1%Z)])
        false newParser
      = (ArrayExpression [Some (NumericLiteral 1%Z); Some (NumericLiteral 2%Z)],
         that2, Ok svNode2).
Proof.
  split; [reflexivity|].
  eapply (scanNode_twice_restores_tree
            (ArrayExpression [Some (NumericLiteral 1%Z); Some (NumericLiteral 2%Z)])
            true false newParser newParser).
  reflexivity.
Defined.

Lemma scanNode_array_second_scan_witness :
  ∃ this1 second,
    scanNode (ArrayExpression [Some (NumericLiteral 1%Z); Some (NumericLiteral 2%Z)])
      true newParser
    = (ArrayExpression [Some (NumericLiteral 2%Z); Some (NumericLiteral 1%Z)], this1,
       Ok (Some (SVArrayExpression (rev second))))
    ∧ scanNode (ArrayExpression [Some (NumericLiteral 2%Z); Some (NumericLiteral 1%Z)])
        false this1
      = (ArrayExpression [Some (NumericLiteral 1%Z); Some (NumericLiteral 2%Z)], this1,
         Ok (Some (SVArrayExpression second)))
    ∧ second = [Some (SVLiteral (JSNumber 1%Z)); Some (SVLiteral (JSNumber 2%Z))].
Proof.
  destruct (scanNode_array_second_scan
              [Some (NumericLiteral 1%Z); Some (NumericLiteral 2%Z)] true newParser)
    as (this1 & second & Hfirst & Hsecond & Hall).
  { intros element Hin.
    apply list_elem_of_In in Hin. simpl in Hin.
    destruct Hin as [<- | [<- | []]]; eexists _, _; split; reflexivity. }
  exists this1, second. split; [exact Hfirst|]. split; [exact Hsecond|].
  apply Forall2_cons_inv_l in Hall as (sv1 & rest1 & (n1 & [= <-] & H1) & Hall & ->).
  apply Forall2_cons_inv_l in Hall as (sv2 & rest2 & (n2 & [= <-] & H2) & Hall & ->).
  apply Forall2_nil_inv_l in Hall as ->.
  cbn in H1, H2. by injection H1 as <-; injection H2 as <-.
Defined.

(** *** Local lookup, and the tree under a declaration *)

Section NodesFurther.

Context {number : Type}.
Implicit Types (h : list (SVScope number)) (a : addr) (name : string).
Implicit Types (this : Parser number).

(** X17: the two local methods agree and never look at an ancestor:
    [hasVariable] answers [true] exactly when [getVariable] returns a
    binding, which is then the scope's own binding of the name, and [false]
    exactly when [getVariable] throws "<name> is not defined.". *)
Theorem hasVariable_iff_getVariable h a name :
  (hasVariable h a name = Ok true
   ↔ ∃ d s, getVariable h a name = Ok d
            ∧ h !! a = Some s ∧ variables s !! name = Some d)
  ∧ (hasVariable h a name = Ok false
     ↔ getVariable h a name = Throw (name +:+ " is not defined.")).
Proof.
  destruct (h !! a) as [s|] eqn:Ha.
  - rewrite (hasVariable_at _ _ _ _ Ha).
    destruct (variables s !! name) as [d|] eqn:Hn.
    + rewrite (getVariable_bound _ _ _ _ _ Ha Hn).
      assert (has s name = true) as -> by (apply has_true; by eexists).
      split; split; try done. intros _. by exists d, s.
    + rewrite (getVariable_unbound _ _ _ _ Ha Hn).
      assert (has s name = false) as -> by (by apply has_false).
      split; split; try done. by intros (d & s' & ? & _).
  - unfold hasVariable, getVariable. rewrite Ha.
    split; split; try done. by intros (d & s' & ? & _).
Qed.

(** X19: what the [VariableDeclaration] case does to the caller's tree
    before it throws.  The declaration keeps its kind and its declarators,
    one for one and in order; a declarator keeps its pattern and is left
    exactly as it was when the pattern is not an identifier; the
    initializer of any other is untouched or as the scan of it leaves it.
    So [let a = [1, 2];] is left as [let a = [2, 1];] by the scan that
    throws. *)
Theorem scanNode_variable_declaration_tree kind
    (declarations : list (VariableDeclarator (Node number))) isForRoot this :
  (∃ declarations' message,
     scanNode (VariableDeclaration kind declarations) isForRoot this
     = (VariableDeclaration kind declarations', this, Throw message)
     ∧ Forall2
         (λ declarator declarator',
            decl_id declarator' = decl_id declarator
            ∧ (isIdentifier (decl_id declarator) = false → declarator' = declarator)
            ∧ (declarator' = declarator
               ∨ ∃ init init' completion,
                   decl_init declarator = Some init
                   ∧ decl_init declarator' = Some init'
                   ∧ scanNode init false this = (init', this, completion)))
         declarations declarations')
  ∧ ∀ one two : number,
      scanNode
        (VariableDeclaration "let"
           [mkDeclarator (Identifier "a")
              (Some (ArrayExpression
                       [Some (NumericLiteral one); Some (NumericLiteral two)]))])
        isForRoot this
      = (VariableDeclaration "let"
           [mkDeclarator (Identifier "a")
              (Some (ArrayExpression
                       [Some (NumericLiteral two); Some (NumericLiteral one)]))],
         this, Throw "SVDefinition is not a constructor").
Proof.
  split.
  - rewrite scanNode_declaration_loop.
    destruct (scanDeclarations_spec kind declarations this)
      as (declarations' & c & -> & Hc & Htree & _).
    destruct c as [variables| |]; [| |done]; by eexists _, _.
  - intros one two. by rewrite scanNode_declaration_loop.
Qed.

End NodesFurther.
